(** * NFFC draft board: the grid construction of [src/app/draft_board.py]

    A shallow embedding of [build_board], [cell_text], [rank_color] and the
    [draft_board] entry point, and the properties of the written
    specification stated over it; then the loading of the [.env] file,
    [_paginated_fetch], [fetch_years] and the styles of [style_board], with
    the properties the code itself shows.

    Conventions of the embedding.
    - A Python [str] is the list of its code points ([pystr]); a literal of
      the source is written [py "..."], the UTF-8 decoding of the Rocq
      string.
    - A Python [int] is a [Z].
    - A Python [float] is an IEEE 754 binary64 value.  Every finite binary64
      value is an integer multiple of [2^-1074]; [FFin k] is the value
      [k * 2^-1074], and every operation rounds the exact result to the
      nearest representable value, ties to even.
    - A raised exception is the [Raise] case of [result].
    - A missing value ([None], [NaN]) of a data-frame column is [None].
    - The integer columns of the view hold 64-bit integers.  An integer
      that passes through a float64 column or row is kept up to [2^53] in
      magnitude and rounded beyond ([int_float]).
    - [sort_values] sorts with a routine that does not fix the order of
      rows with equal keys.  [sort_by_pick] is the ascending order; it is
      the order of the program when the keys are pairwise distinct
      ([distinct_round1]), which the statements that depend on the order of
      round 1 assume. *)

From Stdlib Require Import ZArith Lia List String Ascii.
From stdpp Require Import gmap strings list sorting.

Open Scope Z_scope.

(** ** Exceptions *)

Inductive exn :=
| KeyError (key : string)
| ValueError (msg : string)
| ZeroDivisionError
| OverflowError
| OSError (errno : Z) (strerror : string).

Inductive result (A : Type) :=
| Ok (a : A)
| Raise (e : exn).
Arguments Ok {A} a.
Arguments Raise {A} e.

(** Sequencing: the first exception raised ends the computation. *)
#[global] Instance result_bind : MBind result := fun A B k r =>
  match r with
  | Ok a => k a
  | Raise e => Raise e
  end.

(** ** Python strings *)

Module PyStr.

Definition pystr := list Z.

Definition bytes_of (s : string) : list Z :=
  map (fun a => Z.of_N (N_of_ascii a)) (list_ascii_of_string s).

(** UTF-8 decoding of well-formed input (the literals of this file). *)
Fixpoint utf8_decode (bs : list Z) : pystr :=
  match bs with
  | [] => []
  | b :: r =>
    if b <? 128 then b :: utf8_decode r
    else if b <? 224 then
      match r with
      | c1 :: r1 => ((b - 192) * 64 + (c1 - 128)) :: utf8_decode r1
      | _ => []
      end
    else if b <? 240 then
      match r with
      | c1 :: c2 :: r2 =>
        ((b - 224) * 4096 + (c1 - 128) * 64 + (c2 - 128)) :: utf8_decode r2
      | _ => []
      end
    else
      match r with
      | c1 :: c2 :: c3 :: r3 =>
        ((b - 240) * 262144 + (c1 - 128) * 4096 + (c2 - 128) * 64 + (c3 - 128))
          :: utf8_decode r3
      | _ => []
      end
  end.

Definition py (s : string) : pystr := utf8_decode (bytes_of s).

(** [str.isspace] on one code point: the characters Python's
    [str.strip()] removes. *)
Definition isspace (c : Z) : bool :=
  ((9 <=? c) && (c <=? 13)) || ((28 <=? c) && (c <=? 32))
  || (c =? 133) || (c =? 160) || (c =? 5760)
  || ((8192 <=? c) && (c <=? 8202))
  || (c =? 8232) || (c =? 8233) || (c =? 8239) || (c =? 8287) || (c =? 12288).

Fixpoint lstrip (s : pystr) : pystr :=
  match s with
  | c :: r => if isspace c then lstrip r else s
  | [] => []
  end.

Definition rstrip (s : pystr) : pystr := rev (lstrip (rev s)).

(** [s.strip()] *)
Definition strip (s : pystr) : pystr := rstrip (lstrip s).

Fixpoint digits (fuel : nat) (n : Z) (acc : pystr) : pystr :=
  match fuel with
  | O => acc
  | S f =>
    let acc' := (48 + n mod 10) :: acc in
    if n / 10 =? 0 then acc' else digits f (n / 10) acc'
  end.

(** [str(n)] for an [int]: decimal digits, a leading minus sign when
    negative. *)
Definition str_int (n : Z) : pystr :=
  let m := Z.abs n in
  (if n <? 0 then [45] else []) ++ digits (S (Z.to_nat (Z.log2 m))) m [].

End PyStr.
Import PyStr.

(** ** Python floats: binary64 with round-to-nearest, ties to even *)

Module PyFloat.

Inductive float :=
| FFin (k : Z)          (* the finite value k * 2^-1074 *)
| FInf (neg : bool)
| FNaN.

(** [1.0] in units of [2^-1074]. *)
Definition one : Z := 2 ^ 1074.
(** The first magnitude beyond the finite range, [2^1024]. *)
Definition huge : Z := 2 ^ 2098.

(** [a / b] rounded to the nearest integer, ties to even ([0 <= a], [0 < b]). *)
Definition rne_div (a b : Z) : Z :=
  let q := a / b in
  let r := a mod b in
  if 2 * r <? b then q
  else if b <? 2 * r then q + 1
  else if Z.even q then q else q + 1.

(** The spacing of binary64 values around the magnitude [a / b]
    (in units of [2^-1074]): 53 significant bits, and never below one unit
    (the subnormal range). *)
Definition quantum (a b : Z) : Z := 2 ^ Z.max 0 (Z.log2 (a / b) - 52).

(** The binary64 value nearest to [a / b] units ([0 < b]), in units. *)
Definition round64 (a b : Z) : Z :=
  let m := Z.abs a in
  let u := quantum m b in
  Z.sgn a * (rne_div m (b * u) * u).

Definition of_units (k : Z) : float :=
  if Z.abs k <? huge then FFin k else FInf (k <? 0).

(** [float(n)] for a small literal [n]. *)
Definition of_int (n : Z) : float := FFin (n * one).

(** [a / b] on two [int]s: the correctly rounded quotient. *)
Definition int_truediv (a b : Z) : result float :=
  if b =? 0 then Raise ZeroDivisionError
  else
    let k := round64 (Z.sgn b * a * one) (Z.abs b) in
    if Z.abs k <? huge then Ok (FFin k) else Raise OverflowError.

Definition fsub (x y : float) : float :=
  match x, y with
  | FFin a, FFin b => of_units (round64 (a - b) 1)
  | FNaN, _ | _, FNaN => FNaN
  | FInf s, FInf s' => if Bool.eqb s s' then FNaN else FInf s
  | FInf s, FFin _ => FInf s
  | FFin _, FInf s => FInf (negb s)
  end.

Definition fmul (x y : float) : float :=
  match x, y with
  | FFin a, FFin b => of_units (round64 (a * b) one)
  | FNaN, _ | _, FNaN => FNaN
  | FInf s, FInf s' => FInf (xorb s s')
  | FInf s, FFin b | FFin b, FInf s =>
    if b =? 0 then FNaN else FInf (xorb s (b <? 0))
  end.

(** [f"{x:.0f}"]: the nearest integer, ties to even, with the sign of [x]. *)
Definition format_0f (x : float) : pystr :=
  match x with
  | FFin k =>
    (if k <? 0 then py "-" else []) ++ str_int (rne_div (Z.abs k) one)
  | FInf false => py "inf"
  | FInf true => py "-inf"
  | FNaN => py "nan"
  end.

(** Strict order of two floats ([x < y] in Python). *)
Definition flt (x y : float) : bool :=
  match x, y with
  | FFin a, FFin b => a <? b
  | FInf true, FFin _ | FFin _, FInf false | FInf true, FInf false => true
  | _, _ => false
  end.

End PyFloat.
Import PyFloat.

(** ** Color helpers *)

(** The local [hue] of [rank_color] for a present rank. *)
Definition rank_hue (rank total : Z) : result float :=
  t ← int_truediv (rank - 1) (Z.max (total - 1) 1);
  Ok (fmul (of_int 120) (fsub (of_int 1) t)).

Definition rank_color (rank : option Z) (total : Z) : result (pystr * pystr) :=
  match rank with
  | None => Ok (py "#6c757d", py "#fff")
  | Some rank =>
    hue ← rank_hue rank total;
    Ok (py "hsl(" ++ format_0f hue ++ py ", 75%, 38%)", py "#fff")
  end.

(** ** Draft picks and the pivoted board *)

(** One row of [view_draft_board], as [fetch_draft] selects it.  The
    columns that may hold [NULL] are options. *)
Record Pick := {
  round : Z;
  pick_in_round : Z;
  overall_pick : Z;
  team_id : string;
  draft_order : option Z;
  league_rank : option Z;
  league_points : option float;
  first_name : option pystr;
  last_name : option pystr;
  position : option pystr;
  team : option pystr;
}.

(** The value [build_board] returns: the two grids (rows are rounds
    [1..max_round], columns are slots [1..num_slots]), the column labels the
    grids are renamed to, the rank per label, and [num_slots]. *)
Record Board := {
  text_grid : list (list pystr);
  pos_grid : list (list pystr);
  col_labels : list pystr;
  col_ranks : list (pystr * option Z);
  num_slots : Z;
}.

(** [range(1, n + 1)] *)
Definition range1 (n : Z) : list Z := map Z.of_nat (seq 1 (Z.to_nat n)).

(** [_safe(val)]: the empty string for a missing value. *)
Definition _safe (val : option pystr) : pystr := default [] val.

Definition cell_text (r : Pick) : pystr :=
  let fn := _safe (first_name r) in
  let ln := _safe (last_name r) in
  let name :=
    match strip (fn ++ py " " ++ ln) with
    | [] => py "—"
    | s => s
    end in
  let pos := _safe (position r) in
  let team := _safe (team r) in
  let ovr := overall_pick r in
  name ++ [10] ++ pos ++ py " · " ++ team ++ py " (" ++ str_int ovr ++ py ")".

(** [sort_values("pick_in_round")]: ascending.  With pairwise distinct keys
    there is one ascending order, and this is it; the default routine of
    [sort_values] (a quicksort) does not say in which order it leaves rows
    with equal keys, and neither does this definition stand for it there:
    the insertion below keeps them in input order, the program need not. *)
Fixpoint insert_by_pick (p : Pick) (l : list Pick) : list Pick :=
  match l with
  | [] => [p]
  | q :: r =>
    if pick_in_round p <=? pick_in_round q then p :: l
    else q :: insert_by_pick p r
  end.

Definition sort_by_pick (l : list Pick) : list Pick :=
  foldr insert_by_pick [] l.

(** [{tid: i + 1 for i, tid in enumerate(tids)}], counting from [i]: a later
    entry of a key replaces the earlier one. *)
Fixpoint enumerate_slots (tids : list string) (i : Z) (d : gmap string Z)
  : gmap string Z :=
  match tids with
  | [] => d
  | tid :: rest => enumerate_slots rest (i + 1) (<[tid := i + 1]> d)
  end.

Definition round1_sorted (picks : list Pick) : list Pick :=
  sort_by_pick (filter (fun p => round p = 1) picks).

Definition team_to_slot (picks : list Pick) : gmap string Z :=
  enumerate_slots (map team_id (round1_sorted picks)) 0 ∅.

(** The [draft_order] column after the first step of [build_board]: derived
    from round 1 when the whole column is missing, unchanged otherwise. *)
Definition resolve_draft_order (picks : list Pick) : list (option Z) :=
  if forallb (fun p => bool_decide (draft_order p = None)) picks
  then map (fun p => team_to_slot picks !! team_id p) picks
  else map draft_order picks.

(** [Series.max()]: the largest present value, [None] (NaN) when there is
    none. *)
Definition column_max (col : list (option Z)) : option Z :=
  foldr (fun v acc =>
           match v, acc with
           | Some x, Some y => Some (Z.max x y)
           | Some x, None => Some x
           | None, _ => acc
           end) None col.

(** [int(x)] on the result of [Series.max()]. *)
Definition int_of_max (m : option Z) : result Z :=
  match m with
  | Some x => Ok x
  | None => Raise (ValueError "cannot convert float NaN to integer")
  end.

(** [DataFrame.pivot]: one cell per (round, draft_order) pair; two rows with
    the same pair cannot be reshaped. *)
Fixpoint pivot {V} (rows : list (Z * option Z * V)) (acc : gmap (Z * option Z) V)
  : result (gmap (Z * option Z) V) :=
  match rows with
  | [] => Ok acc
  | (key, v) :: rest =>
    match acc !! key with
    | Some _ => Raise (ValueError "Index contains duplicate entries, cannot reshape")
    | None => pivot rest (<[key := v]> acc)
    end
  end.

(** [.reindex(index=range(1, max_round + 1), columns=range(1, num_slots + 1))
    .fillna("")] *)
Definition reindex_fill (cells : gmap (Z * option Z) (option pystr))
    (max_round num_slots : Z) : list (list pystr) :=
  map (fun r =>
         map (fun s => default [] (mjoin (cells !! (r, Some s))))
             (range1 num_slots))
      (range1 max_round).

(** The first row of a slot, as [drop_duplicates(subset="draft_order")]
    keeps it. *)
Fixpoint team_info (rows : list (option Z * Pick)) (slot : Z) : option Pick :=
  match rows with
  | [] => None
  | (d, p) :: rest =>
    if bool_decide (d = Some slot) then Some p else team_info rest slot
  end.

(** [rank and not pd.isna(rank)] *)
Definition rank_present (rank : option Z) : option Z :=
  match rank with
  | Some r => if r =? 0 then None else Some r
  | None => None
  end.

(** [pts and not pd.isna(pts)] *)
Definition points_present (pts : option float) : option float :=
  match pts with
  | Some (FFin k) => if k =? 0 then None else Some (FFin k)
  | Some (FInf s) => Some (FInf s)
  | Some FNaN | None => None
  end.

(** [" · ".join(parts)] *)
Fixpoint join_dot (parts : list pystr) : pystr :=
  match parts with
  | [] => []
  | [x] => x
  | x :: rest => x ++ py " · " ++ join_dot rest
  end.

(** [int(float(n))]: the integer [n] after a passage through float64.  The
    magnitude is rounded to the nearest float64, ties to even; up to [2^53]
    nothing changes. *)
Definition int_float (n : Z) : Z :=
  Z.sgn n * (round64 (Z.abs n * one) 1 / one).

(** Whether the column [league_rank] of the frame is float64: it is when it
    holds both missing and present values (with values only it is int64,
    with none it holds no number). *)
Definition rank_column_float (rows : list (option Z * Pick)) : bool :=
  existsb (fun r => bool_decide (league_rank r.2 = None)) rows
  && existsb (fun r => bool_decide (league_rank r.2 ≠ None)) rows.

(** Whether the row [team_info.loc[slot]], made of [league_rank] and
    [league_points], is float64: it is when the column [league_points] is
    (some pick has points), or the column [league_rank] is. *)
Definition float_row (rows : list (option Z * Pick)) : bool :=
  existsb (fun r => bool_decide (league_points r.2 ≠ None)) rows
  || rank_column_float rows.

Definition col_label (rows : list (option Z * Pick)) (slot : Z) : pystr :=
  let line1 := py "Slot " ++ str_int slot in
  let line2_parts :=
    match team_info rows slot with
    | Some info =>
      match rank_present (league_rank info) with
      | Some rank =>
        [py "#" ++ str_int (if float_row rows then int_float rank else rank)]
      | None => []
      end ++
      match points_present (league_points info) with
      | Some pts => [format_0f pts ++ py "pts"]
      | None => []
      end
    | None => []
    end in
  match line2_parts with
  | [] => line1
  | _ => line1 ++ [10] ++ join_dot line2_parts
  end.

(** The rank of a slot, read from the column [league_rank]
    ([team_info.loc[slot, "league_rank"]]). *)
Definition col_rank (rows : list (option Z * Pick)) (slot : Z) : option Z :=
  match team_info rows slot with
  | Some info =>
    (fun rank => if rank_column_float rows then int_float rank else rank)
      <$> rank_present (league_rank info)
  | None => None
  end.

Definition build_board (picks_data : list Pick) : result Board :=
  match picks_data with
  | [] => Raise (KeyError "draft_order")
  | _ =>
    let order := resolve_draft_order picks_data in
    num_slots ← int_of_max (column_max order);
    max_round ← int_of_max (column_max (map (fun p => Some (round p)) picks_data));
    let keys := zip (map round picks_data) order in
    text ← pivot (zip keys (map (fun p => Some (cell_text p)) picks_data)) ∅;
    pos ← pivot (zip keys (map position picks_data)) ∅;
    let rows := zip order picks_data in
    let labels := map (col_label rows) (range1 num_slots) in
    Ok {| text_grid := reindex_fill text max_round num_slots;
          pos_grid := reindex_fill pos max_round num_slots;
          col_labels := labels;
          col_ranks := map (fun slot => (col_label rows slot, col_rank rows slot))
                           (range1 num_slots);
          num_slots := num_slots |}
  end.

(** ** The page fragment that shows the board *)

Inductive ui_event :=
| StInfo (msg : pystr)
| StSpinner (msg : pystr)
| FetchDraft (lid : Z)
| StWarning (msg : pystr)
| StMarkdownTitle
| StMarkdownLegend
| CallBuildBoard (picks : list Pick)
| Uncaught (e : exn)
| StTable (b : Board).

(** [draft_board()]: the calls it makes, in order.  [lid] is the selected
    league of the session state and [fetch_draft] the cached query. *)
Definition draft_board (lid : option Z) (fetch_draft : Z → list Pick)
  : list ui_event :=
  match lid with
  | None | Some 0 =>
    [StInfo (py "Select a year and league from the sidebar, then click **Load Board**.")]
  | Some lid =>
    let picks := fetch_draft lid in
    [StSpinner (py "Loading draft board..."); FetchDraft lid] ++
    match picks with
    | [] => [StWarning (py "No draft data found for this league.")]
    | _ =>
      [StMarkdownTitle; StMarkdownLegend; CallBuildBoard picks] ++
      match build_board picks with
      | Ok b => [StTable b]
      | Raise e => [Uncaught e]
      end
    end
  end.

(** ** Vocabulary of the statements *)

(** The cell [round][slot] of a grid, both 1-based. *)
Definition grid_cell (g : list (list pystr)) (r s : Z) : option pystr :=
  row ← g !! Z.to_nat (r - 1);
  row !! Z.to_nat (s - 1).

(** A grid of [rows] rows and [cols] columns. *)
Definition grid_shape (g : list (list pystr)) (rows cols : Z) : Prop :=
  Z.of_nat (length g) = rows ∧
  Forall (fun row => Z.of_nat (length row) = cols) g.

(** [m] is the largest value of [l]. *)
Definition is_max (m : Z) (l : list Z) : Prop :=
  m ∈ l ∧ ∀ x, x ∈ l → x <= m.

(** The coordinates the picks resolve to, in input order. *)
Definition coordinates (picks : list Pick) : list (Z * option Z) :=
  zip (map round picks) (resolve_draft_order picks).

(** The slots that are present in a resolved column. *)
Definition present (col : list (option Z)) : list Z := omap id col.

(** A string that is empty or all white space. *)
Definition blank (s : pystr) : bool := forallb isspace s.

(** A non-empty string with no white space at either end. *)
Definition trimmed (s : pystr) : bool :=
  match s, rev s with
  | c :: _, d :: _ => negb (isspace c) && negb (isspace d)
  | _, _ => false
  end.

(** The position of the last occurrence of [t] in [l], from 0. *)
Fixpoint last_index (t : string) (l : list string) : option nat :=
  match l with
  | [] => None
  | x :: rest =>
    match last_index t rest with
    | Some j => Some (S j)
    | None => if decide (x = t) then Some O else None
    end
  end.

(** The position of the first occurrence of [t] in [l], from 0. *)
Fixpoint first_index (t : string) (l : list string) : option nat :=
  match l with
  | [] => None
  | x :: rest =>
    if decide (x = t) then Some O else S <$> first_index t rest
  end.

(** The cell text as the specification words it: the two names joined by a
    space, the placeholder when both are blank. *)
Definition cell_text_spec (r : Pick) : pystr :=
  let fn := _safe (first_name r) in
  let ln := _safe (last_name r) in
  (if blank fn && blank ln then py "—" else fn ++ py " " ++ ln)
  ++ [10] ++ _safe (position r) ++ py " · " ++ _safe (team r)
  ++ py " (" ++ str_int (overall_pick r) ++ py ")".

(** The slot lookup as the specification words it: the first occurrence of
    a team among the sorted round-1 picks decides its slot. *)
Definition team_to_slot_spec (picks : list Pick) (t : string) : option Z :=
  (fun j => Z.of_nat j + 1) <$> first_index t (map team_id (round1_sorted picks)).

(** A pick with the display fields only. *)
Definition player (r pir ovr : Z) (tid : string) (d : option Z)
    (fn ln pos tm : option pystr) : Pick :=
  {| round := r; pick_in_round := pir; overall_pick := ovr; team_id := tid;
     draft_order := d; league_rank := None; league_points := None;
     first_name := fn; last_name := ln; position := pos; team := tm |}.

Definition josh_allen : Pick :=
  player 1 5 5 "A" (Some 5)
         (Some (py "Josh")) (Some (py "Allen")) (Some (py "QB")) (Some (py "BUF")).

Definition josh : Pick :=
  player 1 5 5 "A" (Some 5) (Some (py "Josh")) None (Some (py "QB")) (Some (py "BUF")).

Definition unnamed : Pick :=
  player 1 5 5 "A" (Some 5) (Some (py " ")) None (Some (py "QB")) (Some (py "BUF")).

(** A legacy pick (no [draft_order]) of team [tid]. *)
Definition legacy (r pir : Z) (tid : string) : Pick :=
  player r pir pir tid None None None None None.

(** A 2 by 2 board with the cell (2, 1) left without a pick. *)
Definition incomplete_draft : list Pick :=
  [ player 1 1 1 "A" (Some 1) (Some (py "Josh")) (Some (py "Allen")) (Some (py "QB")) None;
    player 1 2 2 "B" (Some 2) None None (Some (py "RB")) None;
    player 2 1 3 "B" (Some 2) None None None None ].

(** Two picks with the same round and the same slot. *)
Definition colliding : list Pick :=
  [ player 1 1 1 "A" (Some 1) (Some (py "Josh")) (Some (py "Allen")) (Some (py "QB")) None;
    player 1 2 2 "B" (Some 1) (Some (py "Saquon")) (Some (py "Barkley")) (Some (py "RB")) None ].

(** Round 1 in the order B, A, C, and a second round. *)
Definition bac_draft : list Pick :=
  [ legacy 1 2 "A"; legacy 1 1 "B"; legacy 1 3 "C";
    legacy 2 1 "C"; legacy 2 2 "A"; legacy 2 3 "B" ].

(** Team A picks twice in round 1. *)
Definition repeated_team : list Pick :=
  [ legacy 1 1 "A"; legacy 1 2 "B"; legacy 1 3 "A" ].

(** Ascending order of [pick_in_round]. *)
Definition pick_le (p q : Pick) : Prop := pick_in_round p <= pick_in_round q.

(** The round-1 picks have pairwise distinct [pick_in_round], as in a valid
    pick set: sorting them has one possible result. *)
Definition distinct_round1 (picks : list Pick) : Prop :=
  NoDup (map pick_in_round (filter (fun p => round p = 1) picks)).

(** The slots of the picks do not depend on how rows with equal keys are
    sorted: some [draft_order] is given (nothing is sorted), or the round-1
    picks have pairwise distinct [pick_in_round]. *)
Definition tie_free (picks : list Pick) : Prop :=
  ¬ Forall (fun p => draft_order p = None) picks ∨ distinct_round1 picks.



(** A second evaluator for the hue, in units of [2^-60]: the same roundings
    on numbers small enough to run over every rank of every small board. *)
Definition lo : Z := 2 ^ 60.
Definition lift : Z := 2 ^ 1014.

Definition in_range (a b : Z) : bool := (a =? 0) || (2 ^ 52 * b <=? Z.abs a).

Definition hue_lo (rank total : Z) : option (Z * Z) :=
  let b := Z.max (total - 1) 1 in
  let a := (rank - 1) * lo in
  let t := round64 a b in
  let d := 1 * lo - t in
  let s := round64 d 1 in
  let m := 120 * s in
  let h := round64 m 1 in
  if in_range a b && in_range d 1 && in_range m 1
     && (Z.abs t <? 2 ^ 80) && (Z.abs s <? 2 ^ 80) && (Z.abs h <? 2 ^ 80)
  then Some (h, rne_div (Z.abs h) lo)
  else None.

(** [falls total n rank prev]: the [n] ranks from [rank] on have hues, each
    below the one before it ([prev] to start with) and none negative. *)
Fixpoint falls (total : Z) (n : nat) (rank : Z) (prev : Z * Z) : bool :=
  match n with
  | O => true
  | S n' =>
    match hue_lo rank total with
    | Some (h, k) =>
      (h <? prev.1) && (k <? prev.2) && (0 <=? h) && (0 <=? k)
      && falls total n' (rank + 1) (h, k)
    | None => false
    end
  end.

Definition total_ok (total : Z) : bool :=
  match hue_lo 1 total with
  | Some (h, k) => (k <=? 120) && falls total (Z.to_nat (total - 1)) 2 (h, k)
  | None => false
  end.

Definition hsl (h : Z) : result (pystr * pystr) :=
  Ok (py "hsl(" ++ str_int h ++ py ", 75%, 38%)", py "#fff").
(** ** The [.env] file read at import *)

(** [s.split("=", 1)] for a string that holds ["="]: the text before the
    first ["="] and the text after it; [None] when ["=" in s] is false. *)
Fixpoint split_eq (s : pystr) : option (pystr * pystr) :=
  match s with
  | [] => None
  | c :: r =>
    if c =? 61 then Some ([], r)
    else '(k, v) ← split_eq r; Some (c :: k, v)
  end.

(** [os.environ.setdefault(key, value)] on the variables [env] of the
    process, kept by name: a variable that is set is left as
    it is; setting one goes through [os.putenv], which refuses a NUL
    character in the name or the value and a name that holds ["="], and
    then through [setenv], which fails on an empty name with the error
    [EINVAL]. *)
Definition setdefault (key value : pystr) (env : gmap pystr pystr)
  : result (gmap pystr pystr) :=
  match env !! key with
  | Some _ => Ok env
  | None =>
    if bool_decide (0 ∈ key ∨ 0 ∈ value)
    then Raise (ValueError "embedded null byte")
    else if bool_decide (61 ∈ key)
    then Raise (ValueError "illegal environment variable name")
    else if bool_decide (key = [])
    then Raise (OSError 22 "Invalid argument")
    else Ok (<[key := value]> env)
  end.

(** The body of the loop over the lines of the file. *)
Definition env_line (env : gmap pystr pystr) (_line : pystr)
  : result (gmap pystr pystr) :=
  let _line := strip _line in
  match _line with
  | [] => Ok env
  | c :: _ =>
    if c =? 35 then Ok env
    else
      match split_eq _line with
      | Some (_k, _v) => setdefault (strip _k) (strip _v) env
      | None => Ok env
      end
  end.

Fixpoint load_env (lines : list pystr) (env : gmap pystr pystr)
  : result (gmap pystr pystr) :=
  match lines with
  | [] => Ok env
  | _line :: rest => env' ← env_line env _line; load_env rest env'
  end.

(** [SUPABASE_KEY], as the module computes it: the lines of the [.env]
    file, when the file exists, are loaded into the environment, and the
    variable is read from there. *)
Definition SUPABASE_KEY (dotenv : option (list pystr)) (env : gmap pystr pystr)
  : result pystr :=
  env' ← match dotenv with
         | Some lines => load_env lines env
         | None => Ok env
         end;
  match env' !! py "SUPABASE_ANON_KEY" with
  | Some v => Ok v
  | None => Raise (KeyError "SUPABASE_ANON_KEY")
  end.

(** ** Fetching a table page by page *)

Section paginated.
Context {A : Type}.

(** [query_builder.range(first, last).execute().data]: what the service
    answers when asked for the rows [first] to [last]. *)
Variable execute_range : Z → Z → list A.

(** The loop of [_paginated_fetch], from the state ([offset], [all_rows]);
    [fuel] bounds the number of requests, and [None] is a loop that has
    not ended within it. *)
Fixpoint _paginated_fetch_from (fuel : nat) (page_size offset : Z)
    (all_rows : list A) : option (list A) :=
  match fuel with
  | O => None
  | S fuel =>
    let data := execute_range offset (offset + page_size - 1) in
    let all_rows := all_rows ++ data in
    if Z.of_nat (length data) <? page_size then Some all_rows
    else _paginated_fetch_from fuel page_size (offset + page_size) all_rows
  end.

Definition _paginated_fetch (fuel : nat) (page_size : Z) : option (list A) :=
  _paginated_fetch_from fuel page_size 0 [].

End paginated.

(** [fetch_years]: the distinct years of the rows of [leagues], latest
    first ([sorted({...}, reverse=True)]). *)
Definition fetch_years (select_year : Z → Z → list Z) (fuel : nat)
  : option (list Z) :=
  rows ← _paginated_fetch select_year fuel 1000;
  Some (merge_sort (flip Z.le) (elements (list_to_set rows : gset Z))).

(** A service that holds the table [rows] and answers a range request with
    the rows in that range. *)
Definition table_range {A} (rows : list A) (first last : Z) : list A :=
  take (Z.to_nat (last - first + 1)) (drop (Z.to_nat first) rows).

(** The same service when it gives at most [cap] rows per answer. *)
Definition capped_range {A} (cap : Z) (rows : list A) (first last : Z) : list A :=
  take (Z.to_nat cap) (table_range rows first last).

(** ** Styling the headers *)

(** The dictionary [header_styles] of [style_board]: for each column label
    of [col_ranks], in order, the one rule on ["th"] with the background and
    the text color [rank_color] gives the rank of the column.  ([col_ranks]
    is a dictionary, so its labels are distinct; an exception of
    [rank_color] ends the loop.) *)
Fixpoint header_styles (col_ranks : list (pystr * option Z)) (num_slots : Z)
  : result (list (pystr * list (pystr * pystr))) :=
  match col_ranks with
  | [] => Ok []
  | (col_name, rank) :: rest =>
    '(bg, fg) ← rank_color rank num_slots;
    styles ← header_styles rest num_slots;
    Ok ((col_name,
         [ (py "background-color", bg);
           (py "color", fg);
           (py "white-space", py "pre-line");
           (py "text-align", py "center");
           (py "font-size", py "10px");
           (py "padding", py "6px 4px") ]) :: styles)
  end.

(** The background a header rule sets. *)
Definition background (props : list (pystr * pystr)) : option pystr :=
  snd <$> head props.

(** ** Styling the cells *)

Definition POSITION_COLORS : list (pystr * pystr) :=
  [ (py "QB", py "#FFF0B3"); (py "RB", py "#D1EAF5"); (py "WR", py "#D4F0D4");
    (py "TE", py "#FFD9E2"); (py "K", py "#E6E6FA"); (py "TK", py "#E6E6FA");
    (py "TDSP", py "#E0E0E0"); (py "DEF", py "#E0E0E0") ].

Definition DEFAULT_COLOR : pystr := py "#FFFFFF".

(** [d.get(key, default)] *)
Fixpoint dict_get (d : list (pystr * pystr)) (key default : pystr) : pystr :=
  match d with
  | [] => default
  | (k, v) :: rest =>
    if bool_decide (k = key) then v else dict_get rest key default
  end.

(** One element of the list [_apply_cell_colors] returns: the style of a
    cell whose position is [p]. *)
Definition cell_css (p : pystr) : pystr :=
  match p with
  | [] => []
  | _ =>
    py "background-color: " ++ dict_get POSITION_COLORS p DEFAULT_COLOR
    ++ py "; color: #333; font-size: 11px; white-space: pre-line;"
  end.

(** [grid[name]] as a column: the cells under the label [name], when
    exactly one column carries it. *)
Definition column_named (labels : list pystr) (grid : list (list pystr))
    (name : pystr) : option (list pystr) :=
  '(i, _) ← list_find (fun l => l = name) labels;
  if bool_decide (name ∈ drop (S i) labels) then None
  else mapM (fun row => row !! i) grid.

(** [_apply_cell_colors(col)] inside [style_board], for the column of the
    text grid named [col_name]. *)
Definition _apply_cell_colors (b : Board) (col_name : pystr)
  : option (list pystr) :=
  pos_col ← column_named (col_labels b) (pos_grid b) col_name;
  Some (map cell_css pos_col).

(** *** Reading a slot back from its label *)

(** The number a run of decimal digits stands for, read from the left after
    the digits [acc], up to the first character that is no digit. *)
Fixpoint read_int (acc : Z) (s : pystr) : Z :=
  match s with
  | c :: r =>
    if (48 <=? c) && (c <=? 57) then read_int (acc * 10 + (c - 48)) r else acc
  | [] => acc
  end.

(** The slot a column label names: the number after ["Slot "]. *)
Definition slot_of_label (label : pystr) : Z := read_int 0 (drop 5 label).

(** A pick with the league standing of its team. *)
Definition ranked (r pir : Z) (tid : string) (d : option Z)
    (rank : option Z) (pts : option float) : Pick :=
  {| round := r; pick_in_round := pir; overall_pick := pir; team_id := tid;
     draft_order := d; league_rank := rank; league_points := pts;
     first_name := None; last_name := None; position := None; team := None |}.

(** Two picks of slot 1 that disagree on the rank, and a slot 2 of rank 0. *)
Definition two_ranks : list Pick :=
  [ ranked 1 1 "A" (Some 1) (Some 3) (Some (of_int 1500));
    ranked 2 2 "A" (Some 1) (Some 9) None;
    ranked 1 2 "B" (Some 2) (Some 0) (Some (of_int 0)) ].

(** * Properties *)

(** ** The pivot *)

Section pivot_facts.
Context {V : Type}.
Implicit Types (rows : list (Z * option Z * V)) (acc : gmap (Z * option Z) V).

Lemma pivot_ok rows acc :
  NoDup rows.*1 →
  (∀ k, k ∈ rows.*1 → acc !! k = None) →
  pivot rows acc = Ok (list_to_map rows ∪ acc).
Proof.
  revert acc. induction rows as [|[k v] rest IH]; intros acc Hnd Hfresh; simpl.
  - by rewrite (left_id_L ∅ (∪)).
  - apply NoDup_cons in Hnd as [Hk Hnd].
    rewrite (Hfresh k) by (simpl; left).
    rewrite IH; [|done|].
    + f_equal. rewrite <-insert_union_l. rewrite insert_union_r; [done|].
      by apply not_elem_of_list_to_map_1.
    + intros k' Hk'. rewrite lookup_insert_ne; [|intros ->; done].
      apply Hfresh. simpl. by right.
Qed.

Lemma pivot_clash rows acc k :
  k ∈ rows.*1 → is_Some (acc !! k) →
  pivot rows acc = Raise (ValueError "Index contains duplicate entries, cannot reshape").
Proof.
  revert acc. induction rows as [|[k' v] rest IH]; intros acc Hin Hacc; simpl.
  - by apply elem_of_nil in Hin.
  - destruct (acc !! k') as [w|] eqn:Hk'; [done|].
    apply elem_of_cons in Hin as [->|Hin].
    + simpl in Hacc. rewrite Hk' in Hacc. by destruct Hacc.
    + apply IH; [done|]. rewrite lookup_insert_ne; [done|].
      intros ->. rewrite Hk' in Hacc. by destruct Hacc.
Qed.

Lemma pivot_dup rows acc :
  ¬ NoDup rows.*1 →
  pivot rows acc = Raise (ValueError "Index contains duplicate entries, cannot reshape").
Proof.
  revert acc. induction rows as [|[k v] rest IH]; intros acc Hnd; simpl.
  - destruct Hnd. constructor.
  - destruct (acc !! k) as [w|] eqn:Hk; [done|].
    destruct (decide (k ∈ rest.*1)) as [Hin|Hnin].
    + apply (pivot_clash _ _ k Hin). rewrite lookup_insert_eq. by eexists.
    + apply IH. intros Hnd'. apply Hnd. simpl. by constructor.
Qed.
End pivot_facts.

(** ** Column maxima and ranges *)

Lemma column_max_None col : column_max col = None ↔ present col = [].
Proof.
  induction col as [|[x|] col IH]; simpl; [done| |done].
  unfold present; simpl. destruct (column_max col); split; done.
Qed.

Lemma column_max_Some col m :
  column_max col = Some m → is_max m (present col).
Proof.
  revert m. induction col as [|[x|] col IH]; intros m; simpl; [done| |by auto].
  unfold present; simpl. fold (present col).
  destruct (column_max col) as [y|] eqn:Hy; intros [= <-].
  - destruct (IH y eq_refl) as [Hin Hle]. split.
    + destruct (Z.max_spec x y) as [[_ ->]|[_ ->]]; [by right|by left].
    + intros z [->|Hz]%elem_of_cons; [lia|]. specialize (Hle z Hz). lia.
  - apply column_max_None in Hy. rewrite Hy. split; [by left|].
    intros z [->|Hz]%elem_of_cons; [lia|]. by apply elem_of_nil in Hz.
Qed.

Lemma column_max_is_Some col x :
  x ∈ present col → is_Some (column_max col).
Proof.
  intros Hx. destruct (column_max col) eqn:Hm; [by eexists|].
  apply column_max_None in Hm. rewrite Hm in Hx. by apply elem_of_nil in Hx.
Qed.

Lemma present_map_Some (l : list Z) : present (map Some l) = l.
Proof. unfold present. induction l; simpl; [done|]. by f_equal. Qed.

Lemma elem_of_present col x : x ∈ present col ↔ Some x ∈ col.
Proof.
  unfold present. rewrite list_elem_of_omap. split.
  - intros (y & Hy & Heq). simpl in Heq. by subst.
  - intros H. by exists (Some x).
Qed.

Lemma length_range1 n : length (range1 n) = Z.to_nat n.
Proof. unfold range1. by rewrite length_map, length_seq. Qed.

Lemma lookup_range1 n (i : nat) :
  (i < Z.to_nat n)%nat → range1 n !! i = Some (Z.of_nat i + 1).
Proof.
  intros Hi. unfold range1. rewrite list_lookup_fmap, lookup_seq_lt by done.
  simpl. f_equal. lia.
Qed.

Lemma length_resolve_draft_order picks :
  length (resolve_draft_order picks) = length picks.
Proof. unfold resolve_draft_order. destruct (forallb _ _); by rewrite length_map. Qed.

(** ** The grids *)

Lemma reindex_fill_shape cells nr ns :
  0 <= nr → 0 <= ns →
  grid_shape (reindex_fill cells nr ns) nr ns.
Proof.
  intros Hr Hs. unfold grid_shape, reindex_fill. split.
  - rewrite length_map, length_range1. lia.
  - apply Forall_forall. intros row (r & -> & _)%list_elem_of_fmap.
    rewrite length_map, length_range1. lia.
Qed.

Lemma reindex_fill_cell cells nr ns r s :
  1 <= r <= nr → 1 <= s <= ns →
  grid_cell (reindex_fill cells nr ns) r s
  = Some (default [] (mjoin (cells !! (r, Some s)))).
Proof.
  intros Hr Hs. unfold grid_cell, reindex_fill.
  rewrite list_lookup_fmap, lookup_range1 by lia. simpl.
  rewrite list_lookup_fmap, lookup_range1 by lia. simpl.
  rewrite !Z2Nat.id by lia. by rewrite !Z.sub_add.
Qed.

(** ** [build_board]: when it returns and when it raises *)

Lemma length_coordinates picks : length (coordinates picks) = length picks.
Proof.
  unfold coordinates.
  rewrite length_zip_with_l_eq; rewrite length_map; [done|].
  by rewrite length_resolve_draft_order.
Qed.

Lemma fst_zip_coordinates {V} picks (f : Pick → V) :
  (zip (coordinates picks) (map f picks)).*1 = coordinates picks.
Proof. apply fst_zip. by rewrite length_coordinates, length_map. Qed.

Lemma max_round_is_Some picks :
  picks ≠ [] → is_Some (column_max (map (fun p => Some (round p)) picks)).
Proof.
  destruct picks as [|p rest]; [done|intros _].
  apply (column_max_is_Some _ (round p)), elem_of_present. by left.
Qed.

Lemma build_board_ok picks ns nr :
  picks ≠ [] →
  column_max (resolve_draft_order picks) = Some ns →
  column_max (map (fun p => Some (round p)) picks) = Some nr →
  NoDup (coordinates picks) →
  build_board picks =
    Ok {| text_grid :=
            reindex_fill
              (list_to_map (zip (coordinates picks) (map (fun p => Some (cell_text p)) picks)))
              nr ns;
          pos_grid :=
            reindex_fill (list_to_map (zip (coordinates picks) (map position picks))) nr ns;
          col_labels :=
            map (col_label (zip (resolve_draft_order picks) picks)) (range1 ns);
          col_ranks :=
            map (fun slot => (col_label (zip (resolve_draft_order picks) picks) slot,
                              col_rank (zip (resolve_draft_order picks) picks) slot))
                (range1 ns);
          num_slots := ns |}.
Proof.
  intros Hne Hns Hnr Hnd. unfold build_board.
  destruct picks as [|p rest] eqn:Hp; [done|]. rewrite <-Hp in *.
  rewrite Hns, Hnr. simpl. fold (coordinates picks).
  rewrite !pivot_ok; try (rewrite fst_zip_coordinates; done); try done.
  simpl. by rewrite !(right_id_L ∅ (∪)).
Qed.

Lemma build_board_duplicate picks ns :
  picks ≠ [] →
  column_max (resolve_draft_order picks) = Some ns →
  ¬ NoDup (coordinates picks) →
  build_board picks =
    Raise (ValueError "Index contains duplicate entries, cannot reshape").
Proof.
  intros Hne Hns Hnd. unfold build_board.
  destruct picks as [|p rest] eqn:Hp; [done|]. rewrite <-Hp in *.
  destruct (max_round_is_Some picks Hne) as [nr Hnr].
  rewrite Hns, Hnr. simpl. fold (coordinates picks).
  rewrite !pivot_dup by (by rewrite fst_zip_coordinates). reflexivity.
Qed.

Lemma build_board_no_slot picks :
  picks ≠ [] →
  present (resolve_draft_order picks) = [] →
  build_board picks = Raise (ValueError "cannot convert float NaN to integer").
Proof.
  intros Hne Hnone. unfold build_board.
  destruct picks as [|p rest] eqn:Hp; [done|]. rewrite <-Hp in *.
  apply column_max_None in Hnone. by rewrite Hnone.
Qed.

(** The cell a pivot holds for a coordinate. *)
Lemma pivot_cell_pick {V} picks (f : Pick → V) i p k :
  NoDup (coordinates picks) →
  picks !! i = Some p → coordinates picks !! i = Some k →
  (list_to_map (zip (coordinates picks) (map f picks)) : gmap _ _) !! k = Some (f p).
Proof.
  intros Hnd Hp Hk. apply elem_of_list_to_map_1.
  - by rewrite fst_zip_coordinates.
  - apply list_elem_of_lookup. exists i.
    rewrite lookup_zip_with, Hk. simpl. by rewrite list_lookup_fmap, Hp.
Qed.

Lemma pivot_cell_none {V} picks (f : Pick → V) k :
  k ∉ coordinates picks →
  (list_to_map (zip (coordinates picks) (map f picks)) : gmap _ _) !! k = None.
Proof.
  intros Hk. apply not_elem_of_list_to_map_1. by rewrite fst_zip_coordinates.
Qed.

(** ** C1: dimensions of the grids *)

Lemma is_max_rounds picks nr :
  column_max (map (fun p => Some (round p)) picks) = Some nr →
  is_max nr (map round picks).
Proof.
  intros H. apply column_max_Some in H.
  by rewrite <-(present_map_Some (map round picks)), <-list_fmap_compose.
Qed.

(** C1. For a non-empty pick set with positive rounds, positive resolved
    slots (at least one present) and no two picks on one (round, slot)
    coordinate, [build_board] returns, both grids have [max_round] rows and
    [num_slots] columns, where [max_round] is the largest round and
    [num_slots] the largest resolved draft order, and every cell without a
    pick is the empty string in both grids. *)
Theorem grid_dimensions (picks : list Pick) :
  picks ≠ [] →
  Forall (fun p => 1 <= round p) picks →
  present (resolve_draft_order picks) ≠ [] →
  Forall (fun s => 1 <= s) (present (resolve_draft_order picks)) →
  NoDup (coordinates picks) →
  ∃ b max_round,
    build_board picks = Ok b ∧
    is_max max_round (map round picks) ∧
    is_max (num_slots b) (present (resolve_draft_order picks)) ∧
    grid_shape (text_grid b) max_round (num_slots b) ∧
    grid_shape (pos_grid b) max_round (num_slots b) ∧
    ∀ r s, 1 <= r <= max_round → 1 <= s <= num_slots b →
      (r, Some s) ∉ coordinates picks →
      grid_cell (text_grid b) r s = Some [] ∧
      grid_cell (pos_grid b) r s = Some [].
Proof.
  intros Hne Hround Hsome Hslot Hnd.
  destruct (column_max (resolve_draft_order picks)) as [ns|] eqn:Hns;
    [|by apply column_max_None in Hns].
  destruct (max_round_is_Some picks Hne) as [nr Hnr].
  pose proof (column_max_Some _ _ Hns) as Hmaxs.
  pose proof (is_max_rounds _ _ Hnr) as Hmaxr.
  assert (1 <= ns) as Hns1.
  { destruct Hmaxs as [Hin _]. by apply (proj1 (Forall_forall _ _) Hslot). }
  assert (1 <= nr) as Hnr1.
  { destruct Hmaxr as [Hin _]. apply list_elem_of_fmap in Hin as (p & -> & Hp).
    by apply (proj1 (Forall_forall _ _) Hround). }
  eexists _, nr. split; [by apply build_board_ok|]. simpl.
  split; [done|]. split; [done|].
  split; [apply reindex_fill_shape; lia|].
  split; [apply reindex_fill_shape; lia|].
  intros r s Hr Hs Hfree.
  rewrite !reindex_fill_cell by done.
  by rewrite !pivot_cell_none.
Qed.

Lemma grid_dimensions_witness :
  ∃ b max_round,
    build_board incomplete_draft = Ok b ∧
    is_max max_round (map round incomplete_draft) ∧
    is_max (num_slots b) (present (resolve_draft_order incomplete_draft)) ∧
    grid_shape (text_grid b) max_round (num_slots b) ∧
    grid_shape (pos_grid b) max_round (num_slots b) ∧
    ∀ r s, 1 <= r <= max_round → 1 <= s <= num_slots b →
      (r, Some s) ∉ coordinates incomplete_draft →
      grid_cell (text_grid b) r s = Some [] ∧
      grid_cell (pos_grid b) r s = Some [].
Proof.
  apply (grid_dimensions incomplete_draft).
  - discriminate.
  - repeat constructor; simpl; lia.
  - discriminate.
  - repeat constructor; simpl; lia.
  - apply (bool_decide_unpack (NoDup _)). vm_compute. exact I.
Defined.

(** ** C2: two picks on one coordinate *)

Lemma lookup_coordinates picks i p d :
  picks !! i = Some p → resolve_draft_order picks !! i = Some d →
  coordinates picks !! i = Some (round p, d).
Proof.
  intros Hp Hd. unfold coordinates.
  by rewrite lookup_zip_with, list_lookup_fmap, Hp, Hd.
Qed.

(** C2, as the code has it.  When two picks resolve to the same
    (round, slot) coordinate, [build_board] raises the [ValueError] of
    [DataFrame.pivot]; no grid is returned and no pick overwrites
    another. *)
Theorem collision_raises (picks : list Pick) (i j : nat) (p q : Pick) (s : Z) :
  i ≠ j →
  picks !! i = Some p → picks !! j = Some q →
  round p = round q →
  resolve_draft_order picks !! i = Some (Some s) →
  resolve_draft_order picks !! j = Some (Some s) →
  build_board picks =
    Raise (ValueError "Index contains duplicate entries, cannot reshape").
Proof.
  intros Hij Hp Hq Hround Hsi Hsj.
  assert (picks ≠ []) as Hne by (intros ->; done).
  destruct (column_max_is_Some (resolve_draft_order picks) s) as [ns Hns].
  { apply elem_of_present, list_elem_of_lookup. by exists i. }
  apply (build_board_duplicate picks ns Hne Hns).
  intros Hnd. apply Hij.
  apply (proj1 (NoDup_alt _) Hnd i j (round p, Some s)).
  - by apply lookup_coordinates.
  - rewrite Hround. by apply lookup_coordinates.
Qed.

Lemma collision_raises_witness :
  build_board colliding =
    Raise (ValueError "Index contains duplicate entries, cannot reshape").
Proof.
  eapply (collision_raises colliding 0 1 _ _ 1); [discriminate|reflexivity..].
Defined.

(** The same pick set evaluated: the later pick is in no grid, since there
    is no grid. *)
Lemma collision_overwrite_counterexample :
  coordinates colliding = [(1, Some 1); (1, Some 1)] ∧
  build_board colliding =
    Raise (ValueError "Index contains duplicate entries, cannot reshape").
Proof. split; reflexivity. Qed.

(** ** C3: deriving the slots from round 1 *)

Lemma insert_by_pick_perm p l : insert_by_pick p l ≡ₚ p :: l.
Proof.
  induction l as [|q r IH]; simpl; [done|].
  destruct (pick_in_round p <=? pick_in_round q); [done|].
  rewrite IH. apply Permutation_swap.
Qed.

Lemma sort_by_pick_perm l : sort_by_pick l ≡ₚ l.
Proof.
  induction l as [|p l IH]; simpl; [done|].
  by rewrite insert_by_pick_perm, IH.
Qed.

Lemma insert_by_pick_sorted p l :
  StronglySorted pick_le l → StronglySorted pick_le (insert_by_pick p l).
Proof.
  induction 1 as [|q r Hr IH Hq]; simpl.
  - repeat constructor.
  - destruct (Z.leb_spec (pick_in_round p) (pick_in_round q)) as [Hle|Hlt].
    + constructor; [by constructor|]. constructor; [done|].
      eapply Forall_impl; [exact Hq|]. unfold pick_le. intros x ?. lia.
    + constructor; [done|]. rewrite insert_by_pick_perm.
      constructor; [unfold pick_le; lia|done].
Qed.

Lemma sort_by_pick_sorted l : StronglySorted pick_le (sort_by_pick l).
Proof.
  induction l as [|p l IH]; simpl; [constructor|].
  by apply insert_by_pick_sorted.
Qed.

Lemma enumerate_slots_lookup tids i d t :
  enumerate_slots tids i d !! t =
    match last_index t tids with
    | Some j => Some (i + Z.of_nat j + 1)
    | None => d !! t
    end.
Proof.
  revert i d. induction tids as [|x rest IH]; intros i d; simpl; [done|].
  rewrite IH. destruct (last_index t rest) as [j|].
  - f_equal. lia.
  - destruct (decide (x = t)) as [->|Hne].
    + rewrite lookup_insert_eq. f_equal. lia.
    + by rewrite lookup_insert_ne.
Qed.

Lemma last_index_None t l : last_index t l = None ↔ t ∉ l.
Proof.
  induction l as [|x rest IH]; simpl.
  - split; [intros _; apply not_elem_of_nil|done].
  - rewrite not_elem_of_cons. destruct (last_index t rest).
    + split; [done|]. intros [_ H]. by apply IH in H.
    + destruct (decide (x = t)) as [->|Hne]; split; try done.
      * by intros [? _].
      * intros _. split; [done|]. by apply IH.
Qed.

Lemma last_index_NoDup t l (j : nat) :
  NoDup l → l !! j = Some t → last_index t l = Some j.
Proof.
  intros Hnd. revert j. induction Hnd as [|x rest Hx Hnd IH]; intros j Hj.
  - by rewrite lookup_nil in Hj.
  - simpl. destruct j as [|j]; simpl in Hj.
    + injection Hj as ->.
      apply last_index_None in Hx. rewrite Hx. by rewrite decide_True.
    + by rewrite (IH j Hj).
Qed.

Lemma resolve_explicit picks :
  ¬ Forall (fun p => draft_order p = None) picks →
  resolve_draft_order picks = map draft_order picks.
Proof.
  intros H. unfold resolve_draft_order.
  destruct (forallb _ picks) eqn:Hall; [|done].
  destruct H. apply Forall_forall. intros p Hp%list_elem_of_In.
  rewrite forallb_forall in Hall. apply Hall in Hp.
  by apply bool_decide_eq_true in Hp.
Qed.

Lemma resolve_legacy picks :
  Forall (fun p => draft_order p = None) picks →
  resolve_draft_order picks = map (fun p => team_to_slot picks !! team_id p) picks.
Proof.
  intros H. unfold resolve_draft_order.
  destruct (forallb _ picks) eqn:Hall; [done|].
  apply (f_equal negb) in Hall. simpl in Hall.
  assert (forallb (fun p => bool_decide (draft_order p = None)) picks = true) as Hc.
  { apply forallb_forall. intros p Hp%list_elem_of_In.
    apply bool_decide_eq_true. by apply (proj1 (Forall_forall _ _) H). }
  by rewrite Hc in Hall.
Qed.

(** An element of a list with pairwise distinct keys is known by its key. *)
Lemma same_key_same_pick (l : list Pick) p q :
  NoDup (map pick_in_round l) → p ∈ l → q ∈ l →
  pick_in_round p = pick_in_round q → p = q.
Proof.
  induction l as [|x l IH]; [by intros _ ?%elem_of_nil|].
  change (map pick_in_round (x :: l)) with (pick_in_round x :: (pick_in_round <$> l)).
  intros [Hx Hnd]%NoDup_cons [->|Hp]%elem_of_cons [->|Hq]%elem_of_cons Hkey.
  - done.
  - destruct Hx. rewrite Hkey. apply list_elem_of_fmap. by exists q.
  - destruct Hx. rewrite <-Hkey. apply list_elem_of_fmap. by exists p.
  - by apply IH.
Qed.

(** With pairwise distinct keys a list has one ascending order. *)
Lemma sorted_by_pick_unique (l1 l2 : list Pick) :
  NoDup (map pick_in_round l1) → l1 ≡ₚ l2 →
  StronglySorted pick_le l1 → StronglySorted pick_le l2 → l1 = l2.
Proof.
  revert l2. induction l1 as [|x l1 IH]; intros l2 Hnd Hperm H1 H2.
  - by apply Permutation_nil_l in Hperm.
  - destruct l2 as [|y l2]; [by apply Permutation_nil_r in Hperm|].
    apply StronglySorted_inv in H1 as [H1 Hx].
    apply StronglySorted_inv in H2 as [H2 Hy].
    rewrite Forall_forall in Hx, Hy.
    assert (x = y) as <-.
    { assert (x ∈ y :: l2) as [->|Hxin]%elem_of_cons by (rewrite <-Hperm; left);
        [done|].
      assert (y ∈ x :: l1) as [->|Hyin]%elem_of_cons by (rewrite Hperm; left);
        [done|].
      apply (same_key_same_pick (x :: l1)); [done|left|by right|].
      specialize (Hx y Hyin). specialize (Hy x Hxin). unfold pick_le in *. lia. }
    f_equal. apply IH; [|by eapply Permutation_cons_inv|done|done].
    change (map pick_in_round (x :: l1))
      with (pick_in_round x :: (pick_in_round <$> l1)) in Hnd.
    by apply NoDup_cons in Hnd as [_ ?].
Qed.

(** Whatever routine sorts round 1, with pairwise distinct [pick_in_round]
    its result is [round1_sorted]. *)
Lemma round1_sorted_unique picks r1 :
  distinct_round1 picks →
  r1 ≡ₚ filter (fun p => round p = 1) picks →
  StronglySorted pick_le r1 → r1 = round1_sorted picks.
Proof.
  intros Hd Hperm Hsorted. apply sorted_by_pick_unique; [| |done|].
  - unfold distinct_round1 in Hd.
    change (NoDup (pick_in_round <$> r1)). by rewrite Hperm.
  - rewrite Hperm. symmetry. apply sort_by_pick_perm.
  - apply sort_by_pick_sorted.
Qed.

(** C3, as the code has it.  When every pick lacks [draft_order] and the
    round-1 picks have pairwise distinct [pick_in_round], the round-1 picks
    sorted ascending by [pick_in_round] are [round1_sorted] whatever the
    sorting routine, each pick gets the slot of its team, and a team's slot
    is the 1-based position of its LAST occurrence in that order (the dict
    comprehension overwrites); with no team repeated in round 1 the slots
    are 1, 2, ... in that order, as for B(1), A(2), C(3).  When some pick
    has [draft_order], the column is unchanged. *)
Theorem slot_derivation :
  (∀ picks : list Pick,
     distinct_round1 picks →
     (∀ r1, r1 ≡ₚ filter (fun p => round p = 1) picks →
            StronglySorted pick_le r1 → r1 = round1_sorted picks) ∧
     (Forall (fun p => draft_order p = None) picks →
      resolve_draft_order picks
      = map (fun p => team_to_slot picks !! team_id p) picks) ∧
     round1_sorted picks ≡ₚ filter (fun p => round p = 1) picks ∧
     StronglySorted pick_le (round1_sorted picks) ∧
     (∀ t, team_to_slot picks !! t
           = (fun j => Z.of_nat j + 1)
               <$> last_index t (map team_id (round1_sorted picks))) ∧
     (NoDup (map team_id (round1_sorted picks)) →
      ∀ (j : nat) t, map team_id (round1_sorted picks) !! j = Some t →
                     team_to_slot picks !! t = Some (Z.of_nat j + 1))) ∧
  (∀ picks : list Pick,
     ¬ Forall (fun p => draft_order p = None) picks →
     resolve_draft_order picks = map draft_order picks) ∧
  map team_id (round1_sorted bac_draft) = ["B"; "A"; "C"] ∧
  team_to_slot bac_draft !! "B" = Some 1 ∧
  team_to_slot bac_draft !! "A" = Some 2 ∧
  team_to_slot bac_draft !! "C" = Some 3 ∧
  resolve_draft_order bac_draft
  = [Some 2; Some 1; Some 3; Some 3; Some 2; Some 1].
Proof.
  split; [|split; [apply resolve_explicit|by vm_compute]].
  intros picks Hdistinct.
  assert (∀ t, team_to_slot picks !! t
               = (fun j => Z.of_nat j + 1)
                   <$> last_index t (map team_id (round1_sorted picks))) as Hlast.
  { intros t. unfold team_to_slot. rewrite enumerate_slots_lookup.
    destruct (last_index t _); simpl; [f_equal; lia|apply lookup_empty]. }
  split; [intros r1; by apply round1_sorted_unique|].
  split; [apply resolve_legacy|].
  split; [apply sort_by_pick_perm|].
  split; [apply sort_by_pick_sorted|].
  split; [exact Hlast|].
  intros Hnd j t Hj. by rewrite Hlast, (last_index_NoDup t _ j Hnd Hj).
Qed.

Lemma slot_derivation_witness :
  resolve_draft_order bac_draft
  = map (fun p => team_to_slot bac_draft !! team_id p) bac_draft
  ∧ team_to_slot bac_draft !! "A" = Some 2
  ∧ resolve_draft_order colliding = map draft_order colliding.
Proof.
  destruct slot_derivation as (Hall & Hexplicit & _).
  destruct (Hall bac_draft) as (_ & Hlegacy & _ & _ & _ & Hpos).
  { apply (bool_decide_unpack (NoDup _)). vm_compute. exact I. }
  split; [|split].
  - apply Hlegacy. repeat constructor.
  - apply (Hpos (bool_decide_unpack (NoDup ["B"; "A"; "C"]) ltac:(vm_compute; exact I))
                 1%nat "A").
    reflexivity.
  - apply Hexplicit. intros H. by inversion H.
Defined.

(** The claim's first-occurrence rule against the code on a team with two
    round-1 picks (of distinct [pick_in_round], 1 and 3): the code gives
    team A the slot 3 of its last pick, the rule would give slot 1. *)
Lemma first_occurrence_counterexample :
  map team_id (round1_sorted repeated_team) = ["A"; "B"; "A"] ∧
  team_to_slot repeated_team !! "A" = Some 3 ∧
  team_to_slot_spec repeated_team "A" = Some 1 ∧
  resolve_draft_order repeated_team = [Some 3; Some 2; Some 3].
Proof. by vm_compute. Qed.

(** ** C4: round 1 does not cover every team *)


Lemma resolved_bounds picks ns nr i p r s :
  column_max (resolve_draft_order picks) = Some ns →
  column_max (map (fun p => Some (round p)) picks) = Some nr →
  picks !! i = Some p → coordinates picks !! i = Some (r, Some s) →
  r = round p ∧ r <= nr ∧ s <= ns.
Proof.
  intros Hns Hnr Hp Hc.
  apply column_max_Some in Hns as [_ Hns]. apply is_max_rounds in Hnr as [_ Hnr].
  unfold coordinates in Hc. rewrite lookup_zip_with, list_lookup_fmap, Hp in Hc.
  simpl in Hc. destruct (resolve_draft_order picks !! i) as [d|] eqn:Hd; [|done].
  simpl in Hc. injection Hc as <- ->. split; [done|]. split.
  - apply Hnr, list_elem_of_fmap. exists p. split; [done|].
    apply list_elem_of_lookup. by exists i.
  - apply Hns, elem_of_present, list_elem_of_lookup. by exists i.
Qed.


Lemma grid_cell_range cells nr ns r s txt :
  1 <= r → 1 <= s →
  grid_cell (reindex_fill cells nr ns) r s = Some txt → r <= nr ∧ s <= ns.
Proof.
  intros Hr Hs. unfold grid_cell, reindex_fill. intros Hcell.
  destruct (_ !! Z.to_nat (r - 1)) as [row|] eqn:Hrow; [|done]. simpl in Hcell.
  pose proof (lookup_lt_Some _ _ _ Hrow) as Hlr.
  rewrite length_map, length_range1 in Hlr.
  rewrite list_lookup_fmap in Hrow.
  destruct (range1 nr !! Z.to_nat (r - 1)) as [r'|]; [|done].
  simpl in Hrow. injection Hrow as <-.
  pose proof (lookup_lt_Some _ _ _ Hcell) as Hls.
  rewrite length_map, length_range1 in Hls. lia.
Qed.




(** ** C5: the text of a cell *)

Lemma lstrip_nil s : lstrip s = [] ↔ blank s = true.
Proof.
  unfold blank. induction s as [|c s IH]; simpl; [done|].
  destruct (isspace c); simpl; [done|]. split; discriminate.
Qed.

Lemma lstrip_blank s : blank (lstrip s) = true → blank s = true.
Proof.
  unfold blank. induction s as [|c s IH]; simpl; [done|].
  destruct (isspace c) eqn:Hc; simpl; [done|]. by rewrite Hc.
Qed.

Lemma blank_rev s : blank (rev s) = blank s.
Proof.
  unfold blank. induction s as [|c s IH]; simpl; [done|].
  by rewrite forallb_app, IH; simpl; rewrite andb_true_r, andb_comm.
Qed.

Lemma strip_nil s : strip s = [] ↔ blank s = true.
Proof.
  unfold strip, rstrip. split.
  - intros H. apply (f_equal (@rev Z)) in H. rewrite rev_involutive in H.
    simpl in H. apply lstrip_nil in H. rewrite blank_rev in H.
    by apply lstrip_blank.
  - intros H. apply lstrip_nil in H. by rewrite H.
Qed.

Lemma blank_app s1 s2 : blank (s1 ++ s2) = blank s1 && blank s2.
Proof. apply forallb_app. Qed.

Lemma strip_trimmed s1 s2 :
  trimmed s1 = true → trimmed s2 = true →
  strip (s1 ++ py " " ++ s2) = s1 ++ py " " ++ s2.
Proof.
  intros H1 H2. unfold strip, rstrip.
  assert (lstrip (s1 ++ py " " ++ s2) = s1 ++ py " " ++ s2) as ->.
  { unfold trimmed in H1. destruct s1 as [|c s1]; [done|].
    destruct (rev (c :: s1)); [done|].
    apply andb_true_iff in H1 as [Hc%negb_true_iff _]. simpl. by rewrite Hc. }
  assert (lstrip (rev (s1 ++ py " " ++ s2)) = rev (s1 ++ py " " ++ s2)) as ->.
  { rewrite !rev_app_distr. unfold trimmed in H2.
    destruct s2 as [|c2 s2]; [done|].
    destruct (rev (c2 :: s2)) as [|d r2]; [done|].
    apply andb_true_iff in H2 as [_ Hd%negb_true_iff]. simpl. by rewrite Hd. }
  apply rev_involutive.
Qed.

(** C5, as the code has it.  The cell text of a pick is
    [name \n position · team (overall_pick)], every missing field the empty
    string and [overall_pick] a plain integer; [name] is the first and last
    name joined by a space with the white space at both ends removed (so a
    single missing name leaves no space), and the placeholder when both are
    blank. *)
Theorem cell_text_format :
  (∀ r : Pick,
     ∃ name,
       cell_text r
       = name ++ [10] ++ _safe (position r) ++ py " · " ++ _safe (team r)
         ++ py " (" ++ str_int (overall_pick r) ++ py ")" ∧
       (blank (_safe (first_name r)) = true →
        blank (_safe (last_name r)) = true → name = py "—") ∧
       (blank (_safe (first_name r)) && blank (_safe (last_name r)) = false →
        name = strip (_safe (first_name r) ++ py " " ++ _safe (last_name r))) ∧
       (trimmed (_safe (first_name r)) = true →
        trimmed (_safe (last_name r)) = true →
        name = _safe (first_name r) ++ py " " ++ _safe (last_name r))) ∧
  cell_text josh_allen = py "Josh Allen" ++ [10] ++ py "QB · BUF (5)" ∧
  cell_text josh = py "Josh" ++ [10] ++ py "QB · BUF (5)" ∧
  cell_text unnamed = py "—" ++ [10] ++ py "QB · BUF (5)".
Proof.
  split; [|by vm_compute]. intros r.
  set (fn := _safe (first_name r)). set (ln := _safe (last_name r)).
  assert (blank (fn ++ py " " ++ ln) = blank fn && blank ln) as Hblank
    by (by rewrite !blank_app).
  unfold cell_text. fold fn ln.
  destruct (strip (fn ++ py " " ++ ln)) as [|c s] eqn:Hs.
  - pose proof Hs as Hs'. apply strip_nil in Hs. rewrite Hblank in Hs.
    eexists. split; [reflexivity|]. split; [done|]. split.
    + intros H. by rewrite H in Hs.
    + intros H1 H2. rewrite strip_trimmed in Hs' by done.
      apply app_eq_nil in Hs' as [_ Hs']. by apply app_eq_nil in Hs' as [Hs' _].
  - eexists. split; [reflexivity|]. split; [|split].
    + intros H1 H2. assert (strip (fn ++ py " " ++ ln) = []) as Hnil.
      { apply strip_nil. by rewrite Hblank, H1, H2. }
      by rewrite Hnil in Hs.
    + done.
    + intros H1 H2. by rewrite <-Hs, strip_trimmed.
Qed.

Lemma cell_text_format_witness :
  ∃ name,
    cell_text josh_allen
    = name ++ [10] ++ py "QB" ++ py " · " ++ py "BUF" ++ py " (" ++ str_int 5 ++ py ")" ∧
    name = py "Josh" ++ py " " ++ py "Allen".
Proof.
  destruct (proj1 cell_text_format josh_allen) as (name & Htext & _ & _ & Htrim).
  exists name. split; [exact Htext|]. apply Htrim; reflexivity.
Defined.

(** The claim's template against the code on a pick with a first name only:
    the template leaves a space after "Josh", the code strips it. *)
Lemma one_name_counterexample :
  cell_text josh = py "Josh" ++ [10] ++ py "QB · BUF (5)" ∧
  cell_text_spec josh = py "Josh " ++ [10] ++ py "QB · BUF (5)".
Proof. by vm_compute. Qed.

(** ** C8: the color of an absent rank *)

(** C8. With no rank, [rank_color] returns the neutral gray background and
    the white foreground, whatever the number of slots. *)
Theorem absent_rank_neutral (total : Z) :
  rank_color None total = Ok (py "#6c757d", py "#fff").
Proof. reflexivity. Qed.

(** ** C9: no picks *)

(** C9. [draft_board] never calls [build_board] on an empty pick list: when
    the fetch returns no pick it warns that there is no draft data and
    returns, with no call of [build_board] in between. *)
Theorem empty_input_short_circuits (lid : option Z) (fetch_draft : Z → list Pick) :
  (∀ picks, CallBuildBoard picks ∈ draft_board lid fetch_draft → picks ≠ []) ∧
  (∀ l, lid = Some l → l ≠ 0 → fetch_draft l = [] →
     draft_board lid fetch_draft
     = [ StSpinner (py "Loading draft board..."); FetchDraft l;
         StWarning (py "No draft data found for this league.") ]).
Proof.
  split.
  - intros picks Hin ->. unfold draft_board in Hin.
    assert (∀ l, CallBuildBoard [] ∉
              [StSpinner (py "Loading draft board..."); FetchDraft l] ++
              match fetch_draft l with
              | [] => [StWarning (py "No draft data found for this league.")]
              | _ => [StMarkdownTitle; StMarkdownLegend;
                      CallBuildBoard (fetch_draft l)] ++
                     match build_board (fetch_draft l) with
                     | Ok b => [StTable b]
                     | Raise e => [Uncaught e]
                     end
              end) as Hbody.
    { intros l H. destruct (fetch_draft l) as [|p rest] eqn:Hf;
        [|destruct (build_board (p :: rest))]; simpl in H;
        repeat (apply elem_of_cons in H as [H|H]; [discriminate|]);
        by apply elem_of_nil in H. }
    destruct lid as [[|l|l]|].
    + apply elem_of_cons in Hin as [Hin|Hin]; [discriminate|].
      by apply elem_of_nil in Hin.
    + by apply (Hbody (Z.pos l)).
    + by apply (Hbody (Z.neg l)).
    + apply elem_of_cons in Hin as [Hin|Hin]; [discriminate|].
      by apply elem_of_nil in Hin.
  - intros l -> Hl Hf. unfold draft_board. rewrite Hf. by destruct l.
Qed.

Lemma empty_input_short_circuits_witness :
  draft_board (Some 7) (fun _ => [])
  = [ StSpinner (py "Loading draft board..."); FetchDraft 7;
      StWarning (py "No draft data found for this league.") ].
Proof.
  apply (proj2 (empty_input_short_circuits (Some 7) (fun _ => [])) 7);
    [reflexivity|discriminate|reflexivity].
Defined.

(** What the short circuit avoids: on no pick the data frame has no
    [draft_order] column. *)
Lemma build_board_empty : build_board [] = Raise (KeyError "draft_order").
Proof. reflexivity. Qed.

(** ** Rounding to binary64 *)

Lemma rne_div_scale a b c :
  0 < b → 0 < c → rne_div (a * c) (b * c) = rne_div a b.
Proof.
  intros Hb Hc. unfold rne_div.
  rewrite Z.div_mul_cancel_r, Z.mul_mod_distr_r by lia.
  set (q := a / b). set (r := a mod b).
  destruct (Z.ltb_spec (2 * r) b), (Z.ltb_spec (2 * (r * c)) (b * c)),
    (Z.ltb_spec b (2 * r)), (Z.ltb_spec (b * c) (2 * (r * c)));
    try done; nia.
Qed.

Lemma rne_div_exact x b : 0 < b → rne_div (x * b) b = x.
Proof.
  intros Hb. unfold rne_div. rewrite Z.div_mul, Z.mod_mul by lia.
  destruct (Z.ltb_spec (2 * 0) b); [done|lia].
Qed.

Lemma rne_div_bounds a b :
  0 < b → a / b <= rne_div a b <= a / b + 1.
Proof.
  intros Hb. unfold rne_div.
  destruct (_ <? _); [lia|]. destruct (_ <? _); [lia|].
  destruct (Z.even _); lia.
Qed.

Lemma rne_div_mono a a' b :
  0 < b → a <= a' → rne_div a b <= rne_div a' b.
Proof.
  intros Hb Hle.
  pose proof (Z.div_le_mono a a' b Hb Hle) as Hq.
  destruct (Z.eq_dec (a / b) (a' / b)) as [Heq|Hne].
  - pose proof (Z.div_mod a b ltac:(lia)) as Ha.
    pose proof (Z.div_mod a' b ltac:(lia)) as Ha'.
    unfold rne_div. rewrite <-Heq in *.
    set (q := a / b) in *. set (r := a mod b) in *. set (r' := a' mod b) in *.
    destruct (Z.ltb_spec (2 * r) b), (Z.ltb_spec (2 * r') b),
      (Z.ltb_spec b (2 * r)), (Z.ltb_spec b (2 * r')), (Z.even q); nia.
  - pose proof (rne_div_bounds a b Hb). pose proof (rne_div_bounds a' b Hb). lia.
Qed.

Lemma rne_div_nonneg a b : 0 < b → 0 <= a → 0 <= rne_div a b.
Proof.
  intros Hb Ha. pose proof (rne_div_bounds a b Hb).
  pose proof (Z.div_pos a b Ha Hb). lia.
Qed.

Lemma quantum_pos a b : 0 < quantum a b.
Proof. unfold quantum. apply Z.pow_pos_nonneg; lia. Qed.

Lemma round64_0 b : round64 0 b = 0.
Proof. done. Qed.

Lemma round64_pos a b :
  0 < b → 0 <= a → round64 a b = rne_div a (b * quantum a b) * quantum a b.
Proof.
  intros Hb Ha. unfold round64. rewrite Z.abs_eq by done.
  destruct (Z.eq_dec a 0) as [->|Hne].
  - pose proof (quantum_pos 0 b).
    pose proof (rne_div_exact 0 (b * quantum 0 b) ltac:(nia)) as E.
    rewrite Z.mul_0_l in E. rewrite E. simpl. lia.
  - rewrite Z.sgn_pos by lia. lia.
Qed.

Lemma round64_opp a b : round64 (- a) b = - round64 a b.
Proof. unfold round64. rewrite Z.sgn_opp, Z.abs_opp. lia. Qed.

Lemma round64_nonneg a b : 0 < b → 0 <= a → 0 <= round64 a b.
Proof.
  intros Hb Ha. rewrite round64_pos by done.
  pose proof (quantum_pos a b).
  apply Z.mul_nonneg_nonneg; [apply rne_div_nonneg; nia|lia].
Qed.

Lemma round64_scale a b c :
  0 < b → 0 < c → round64 (a * c) (b * c) = round64 a b.
Proof.
  intros Hb Hc. unfold round64.
  rewrite Z.sgn_mul, (Z.sgn_pos c), Z.mul_1_r by done.
  rewrite Z.abs_mul, (Z.abs_eq c) by lia.
  assert (quantum (Z.abs a * c) (b * c) = quantum (Z.abs a) b) as ->.
  { unfold quantum. by rewrite Z.div_mul_cancel_r by lia. }
  pose proof (quantum_pos (Z.abs a) b).
  replace (b * c * quantum (Z.abs a) b) with (b * quantum (Z.abs a) b * c) by lia.
  rewrite rne_div_scale by nia. done.
Qed.

(** The exponent of the quantum: [quantum a b = 2 ^ qexp a b]. *)
Lemma quantum_exp_mono a a' b :
  0 < b → 0 <= a <= a' →
  Z.max 0 (Z.log2 (a / b) - 52) <= Z.max 0 (Z.log2 (a' / b) - 52).
Proof.
  intros Hb Ha.
  pose proof (Z.log2_le_mono (a / b) (a' / b)
                (Z.div_le_mono a a' b Hb (proj2 Ha))). lia.
Qed.

(** A power of two above the binade of [a / b] and its rounding. *)
Lemma round64_below_pow2 a b n :
  0 < b → 0 <= a → a < b * 2 ^ n →
  Z.max 0 (Z.log2 (a / b) - 52) <= n →
  round64 a b <= 2 ^ n.
Proof.
  intros Hb Ha Hlt He. rewrite round64_pos by done. unfold quantum.
  set (e := Z.max 0 (Z.log2 (a / b) - 52)) in *.
  assert (0 <= e) as He0 by lia.
  assert (2 ^ n = 2 ^ (n - e) * 2 ^ e) as Hpow
    by (rewrite <-Z.pow_add_r by lia; f_equal; lia).
  assert (0 < 2 ^ e) as Hu by (apply Z.pow_pos_nonneg; lia).
  rewrite Hpow. apply Z.mul_le_mono_nonneg_r; [lia|].
  rewrite <-(rne_div_exact (2 ^ (n - e)) (b * 2 ^ e)) by nia.
  apply rne_div_mono; nia.
Qed.

Lemma round64_above_pow2 a b n :
  0 < b → 0 <= n → b * 2 ^ (n + 52) <= a →
  Z.max 0 (Z.log2 (a / b) - 52) = n →
  2 ^ (n + 52) <= round64 a b.
Proof.
  intros Hb Hn Hle He.
  assert (0 < 2 ^ (n + 52)) as Hp by (apply Z.pow_pos_nonneg; lia).
  rewrite round64_pos by nia. unfold quantum. rewrite He.
  assert (0 < 2 ^ n) as Hu by (apply Z.pow_pos_nonneg; lia).
  rewrite Z.pow_add_r, Z.mul_comm by lia.
  apply Z.mul_le_mono_nonneg_r; [lia|].
  rewrite <-(rne_div_exact (2 ^ 52) (b * 2 ^ n)) by nia.
  apply rne_div_mono; [nia|].
  rewrite Z.pow_add_r in Hle by lia. nia.
Qed.

Lemma round64_mono_num a a' b :
  0 < b → 0 <= a <= a' → round64 a b <= round64 a' b.
Proof.
  intros Hb Ha.
  pose proof (quantum_exp_mono a a' b Hb Ha) as He.
  set (e := Z.max 0 (Z.log2 (a / b) - 52)) in *.
  set (e' := Z.max 0 (Z.log2 (a' / b) - 52)) in *.
  destruct (Z.eq_dec e e') as [Heq|Hne].
  - rewrite !round64_pos by lia. unfold quantum. fold e e'. rewrite <-Heq.
    assert (0 < 2 ^ e) as Hu by (apply Z.pow_pos_nonneg; lia).
    apply Z.mul_le_mono_nonneg_r; [lia|]. apply rne_div_mono; [nia|lia].
  - assert (0 < e') as He' by lia.
    assert (Z.log2 (a' / b) = e' + 52) as Hlog' by lia.
    assert (0 < a' / b) as Hq'.
    { destruct (Z.lt_trichotomy 0 (a' / b)) as [?|[H0|H0]]; [done| |].
      - rewrite <-H0 in Hlog'. simpl in Hlog'. lia.
      - rewrite Z.log2_nonpos in Hlog' by lia. lia. }
    pose proof (Z.log2_spec (a' / b) Hq') as [Hlo _]. rewrite Hlog' in Hlo.
    assert (b * 2 ^ (e' + 52) <= a') as Hle'.
    { pose proof (Z.mul_div_le a' b Hb). nia. }
    assert (a / b < 2 ^ (e' + 52)) as Hhi.
    { assert (0 < 2 ^ (e' + 52)) by (apply Z.pow_pos_nonneg; lia).
      destruct (Z.eq_dec (a / b) 0) as [->|H0]; [done|].
      assert (0 < a / b) by (pose proof (Z.div_pos a b (proj1 Ha) Hb); lia).
      apply Z.log2_lt_pow2; lia. }
    assert (a < b * 2 ^ (e' + 52)) as Hlt.
    { pose proof (Z.div_mod a b ltac:(lia)).
      pose proof (Z.mod_pos_bound a b Hb). nia. }
    etrans; [apply (round64_below_pow2 a b (e' + 52)); fold e; lia|].
    apply round64_above_pow2; fold e'; lia.
Qed.

(** Rounding is monotone on non-negative fractions. *)
Lemma round64_mono a b a' b' :
  0 < b → 0 < b' → 0 <= a → a * b' <= a' * b →
  round64 a b <= round64 a' b'.
Proof.
  intros Hb Hb' Ha Hle.
  rewrite <-(round64_scale a b b'), <-(round64_scale a' b' b) by done.
  rewrite (Z.mul_comm b' b). apply round64_mono_num; nia.
Qed.

(** In the normal range rounding commutes with a change of unit. *)
Lemma round64_homog a b j :
  0 < b → 0 <= j → 2 ^ 52 <= Z.abs a / b →
  round64 (a * 2 ^ j) b = round64 a b * 2 ^ j.
Proof.
  intros Hb Hj Hn.
  assert (0 < 2 ^ j) as H2j by (apply Z.pow_pos_nonneg; lia).
  unfold round64. rewrite Z.sgn_mul, (Z.sgn_pos (2 ^ j)), Z.mul_1_r by done.
  rewrite Z.abs_mul, (Z.abs_eq (2 ^ j)) by lia.
  set (m := Z.abs a) in *.
  assert (0 < m / b) as Hq by lia.
  pose proof (Z.log2_spec (m / b) Hq) as [Hlo Hhi].
  assert (52 <= Z.log2 (m / b)) as Hl52.
  { apply Z.log2_le_pow2; lia. }
  assert (Z.log2 (m * 2 ^ j / b) = Z.log2 (m / b) + j) as Hlog.
  { apply Z.log2_unique; [lia|].
    pose proof (Z.div_mod m b ltac:(lia)) as Hm.
    pose proof (Z.mod_pos_bound m b Hb) as Hr.
    rewrite Z.pow_succ_r, !Z.pow_add_r by lia.
    rewrite Z.pow_succ_r in Hhi by lia. clear Hn Hl52.
    set (q := m / b) in *. set (r := m mod b) in *.
    set (P := 2 ^ Z.log2 q) in *. set (J := 2 ^ j) in *.
    assert (b * P <= m) as H1 by nia.
    assert (m < b * (2 * P)) as H2 by nia.
    split.
    - apply Z.div_le_lower_bound; [done|].
      replace (b * (P * J)) with (b * P * J) by lia.
      apply Z.mul_le_mono_nonneg_r; lia.
    - apply Z.div_lt_upper_bound; [done|].
      replace (b * (2 * (P * J))) with (b * (2 * P) * J) by lia.
      apply Z.mul_lt_mono_pos_r; lia. }
  assert (quantum (m * 2 ^ j) b = quantum m b * 2 ^ j) as ->.
  { unfold quantum. rewrite Hlog, !Z.max_r by lia.
    rewrite <-Z.pow_add_r by lia. f_equal. lia. }
  pose proof (quantum_pos m b).
  replace (b * (quantum m b * 2 ^ j)) with (b * quantum m b * 2 ^ j) by lia.
  rewrite rne_div_scale by nia. lia.
Qed.

(** ** [rank_color] *)

Lemma one_pos : 0 < one.
Proof. by vm_compute. Qed.

Lemma round64_one : round64 one 1 = one.
Proof. by vm_compute. Qed.

Lemma int_truediv_pos k b :
  0 < b →
  int_truediv k b =
    if Z.abs (round64 (k * one) b) <? huge
    then Ok (FFin (round64 (k * one) b)) else Raise OverflowError.
Proof.
  intros Hb. unfold int_truediv.
  destruct (Z.eqb_spec b 0); [lia|].
  by rewrite Z.sgn_pos, (Z.abs_eq b), Z.mul_1_l by lia.
Qed.

(** A quotient of non-negative integers below [2^53] is a finite float. *)
Lemma int_truediv_bounded k b :
  0 < b → 0 <= k <= 2 ^ 53 →
  ∃ t, int_truediv k b = Ok (FFin t) ∧ t = round64 (k * one) b ∧
       0 <= t <= 2 ^ 53 * one.
Proof.
  intros Hb Hk. pose proof one_pos.
  assert (0 <= round64 (k * one) b <= 2 ^ 53 * one) as Ht.
  { split; [apply round64_nonneg; nia|].
    assert (round64 (2 ^ 53 * one) 1 = 2 ^ 53 * one) as <- by (by vm_compute).
    apply round64_mono; nia. }
  eexists. split; [|done]. rewrite int_truediv_pos by done.
  assert (2 ^ 53 * one < huge) by (by vm_compute).
  destruct (Z.ltb_spec (Z.abs (round64 (k * one) b)) huge); [done|lia].
Qed.

Lemma int_truediv_unit k b :
  0 < b → 0 <= k <= b →
  ∃ t, int_truediv k b = Ok (FFin t) ∧ 0 <= t <= one.
Proof.
  intros Hb Hk. pose proof one_pos.
  assert (0 <= round64 (k * one) b <= one) as Ht.
  { split; [apply round64_nonneg; nia|].
    rewrite <-round64_one at 2. apply round64_mono; nia. }
  eexists. split; [|done]. rewrite int_truediv_pos by done.
  assert (one < huge) by (by vm_compute).
  destruct (Z.ltb_spec (Z.abs (round64 (k * one) b)) huge); [done|lia].
Qed.

Lemma rank_color_hue rank total t :
  int_truediv (rank - 1) (Z.max (total - 1) 1) = Ok t →
  rank_hue rank total = Ok (fmul (of_int 120) (fsub (of_int 1) t)) ∧
  rank_color (Some rank) total
  = Ok (py "hsl(" ++ format_0f (fmul (of_int 120) (fsub (of_int 1) t))
          ++ py ", 75%, 38%)", py "#fff").
Proof. intros Ht. unfold rank_color, rank_hue. by rewrite Ht. Qed.

(** C6. For a present rank in [1, total] with positive [total],
    [rank_color] computes [t = (rank - 1) / max(total - 1, 1)], which lies
    in [0, 1], and [hue = 120 * (1 - t)], and returns the background of
    that hue at saturation 75% and lightness 38% with the white foreground.
    Rank 1 has hue 120, rank [total] (of two or more) has hue 0, and for a
    single slot there is no division by zero: [t] is 0 and the hue 120. *)
Theorem rank_color_scale (rank total : Z) :
  1 <= total → 1 <= rank <= total →
  ∃ t hue,
    int_truediv (rank - 1) (Z.max (total - 1) 1) = Ok (FFin t) ∧
    0 <= t <= one ∧
    hue = fmul (of_int 120) (fsub (of_int 1) (FFin t)) ∧
    rank_color (Some rank) total
    = Ok (py "hsl(" ++ format_0f hue ++ py ", 75%, 38%)", py "#fff") ∧
    (rank = 1 → t = 0 ∧ hue = of_int 120 ∧ format_0f hue = py "120") ∧
    (rank = total → 2 <= total →
     t = one ∧ hue = of_int 0 ∧ format_0f hue = py "0") ∧
    (total = 1 → t = 0 ∧ hue = of_int 120).
Proof.
  intros Htotal Hrank.
  assert (0 < Z.max (total - 1) 1) as Hb by lia.
  destruct (int_truediv_unit (rank - 1) (Z.max (total - 1) 1) Hb) as (t & Ht & Hrange);
    [lia|].
  exists t, (fmul (of_int 120) (fsub (of_int 1) (FFin t))).
  split; [done|]. split; [done|]. split; [done|].
  split; [by apply rank_color_hue|].
  rewrite int_truediv_pos in Ht by done.
  destruct (_ <? huge); [|done]. injection Ht as Ht.
  assert (rank = 1 → t = 0) as Hfirst.
  { intros ->. by rewrite <-Ht. }
  split; [|split].
  - intros Hr. rewrite (Hfirst Hr). by vm_compute.
  - intros -> H2. rewrite Z.max_l in Ht by lia.
    rewrite <-(Z.mul_1_l (total - 1)) in Ht at 2.
    rewrite Z.mul_comm, round64_scale, round64_one in Ht by lia.
    subst t. by vm_compute.
  - intros ->. assert (rank = 1) as Hr by lia. rewrite (Hfirst Hr). by vm_compute.
Qed.

Lemma rank_color_scale_witness :
  ∃ t hue,
    int_truediv (5 - 1) (Z.max (12 - 1) 1) = Ok (FFin t) ∧
    0 <= t <= one ∧
    hue = fmul (of_int 120) (fsub (of_int 1) (FFin t)) ∧
    rank_color (Some 5) 12
    = Ok (py "hsl(" ++ format_0f hue ++ py ", 75%, 38%)", py "#fff") ∧
    (5 = 1 → t = 0 ∧ hue = of_int 120 ∧ format_0f hue = py "120") ∧
    (5 = 12 → 2 <= 12 → t = one ∧ hue = of_int 0 ∧ format_0f hue = py "0") ∧
    (12 = 1 → t = 0 ∧ hue = of_int 120).
Proof. apply (rank_color_scale 5 12); lia. Defined.

(** The hue of a quotient [t] above 1: at least as negative as the hue of
    any smaller quotient [T0 >= 1]. *)
Lemma hue_excess T0 t :
  one <= T0 → T0 <= t <= 2 ^ 53 * one →
  ∃ h, fmul (of_int 120) (fsub (of_int 1) (FFin t)) = FFin h ∧
       - (120 * (2 ^ 53 * one)) <= h
       <= - round64 (120 * one * round64 (T0 - one) 1) one.
Proof.
  intros HT0 Ht. pose proof one_pos as H1.
  assert (2 ^ 53 * one < huge) as Hbig by (by vm_compute).
  assert (120 * (2 ^ 53 * one) < huge) as Hbig' by (by vm_compute).
  set (x0 := round64 (T0 - one) 1). set (x := round64 (t - one) 1).
  assert (0 <= x0 <= x ∧ x <= 2 ^ 53 * one) as Hx.
  { split; [split|].
    - apply round64_nonneg; lia.
    - apply round64_mono; lia.
    - assert (round64 (2 ^ 53 * one) 1 = 2 ^ 53 * one) as <- by (by vm_compute).
      apply round64_mono; lia. }
  assert (fsub (of_int 1) (FFin t) = FFin (- x)) as Hs.
  { unfold fsub, of_int, of_units.
    replace (1 * one - t) with (- (t - one)) by lia.
    rewrite round64_opp. fold x.
    destruct (Z.ltb_spec (Z.abs (- x)) huge); [done|lia]. }
  set (y0 := round64 (120 * one * x0) one).
  set (y := round64 (120 * one * x) one).
  assert (0 <= y0 <= y ∧ y <= 120 * (2 ^ 53 * one)) as Hy.
  { split; [split|].
    - apply round64_nonneg; nia.
    - apply round64_mono; nia.
    - assert (round64 (120 * one * (2 ^ 53 * one)) one = 120 * (2 ^ 53 * one)) as <-
        by (by vm_compute).
      apply round64_mono; nia. }
  exists (- y). split; [|lia].
  rewrite Hs. unfold fmul, of_int, of_units.
  replace (120 * one * - x) with (- (120 * one * x)) by lia.
  rewrite round64_opp. fold y.
  destruct (Z.ltb_spec (Z.abs (- y)) huge); [done|lia].
Qed.

(** The quotient of a rank beyond [total]. *)
Lemma truediv_excess rank total N :
  2 <= total → total - 1 <= N → total < rank <= 2 ^ 53 →
  ∃ t, int_truediv (rank - 1) (Z.max (total - 1) 1) = Ok (FFin t) ∧
       round64 ((N + 1) * one) N <= t <= 2 ^ 53 * one.
Proof.
  intros Htotal HN Hrank. pose proof one_pos.
  destruct (int_truediv_bounded (rank - 1) (Z.max (total - 1) 1))
    as (t & Ht & -> & Hrange); [lia..|].
  exists (round64 ((rank - 1) * one) (Z.max (total - 1) 1)).
  split; [done|]. split; [|lia].
  rewrite Z.max_l by lia.
  assert ((N + 1) * (total - 1) <= (rank - 1) * N) as Hfrac by nia.
  apply round64_mono; [lia|lia|nia|].
  replace ((N + 1) * one * (total - 1)) with ((N + 1) * (total - 1) * one) by lia.
  replace ((rank - 1) * one * N) with ((rank - 1) * N * one) by lia.
  apply Z.mul_le_mono_nonneg_r; lia.
Qed.

(** C10, as the code has it.  For ranks up to [2^53], [rank_color] returns
    with the white foreground for every positive [total]; it does not clamp
    [t]: for [total] from 2 to [2^52] a rank beyond [total] has a negative
    hue, and for [total] up to 240 the hue returned is a negative integer,
    outside [0, 120] (rank 13 of 12 gives -11).  With a single slot the
    denominator is floored to 1, so rank 2 has [t = 1] and hue 0. *)
Theorem rank_color_unclamped :
  (∀ rank total, 1 <= total → 1 <= rank <= 2 ^ 53 →
     ∃ bg, rank_color (Some rank) total = Ok (bg, py "#fff")) ∧
  (∀ rank total, 2 <= total <= 2 ^ 52 → total < rank <= 2 ^ 53 →
     ∃ h, rank_hue rank total = Ok (FFin h) ∧ h < 0) ∧
  (∀ rank total, 2 <= total <= 240 → total < rank <= 2 ^ 53 →
     ∃ n, 1 <= n ∧
          rank_color (Some rank) total
          = Ok (py "hsl(-" ++ str_int n ++ py ", 75%, 38%)", py "#fff")) ∧
  rank_color (Some 13) 12 = Ok (py "hsl(-11, 75%, 38%)", py "#fff") ∧
  rank_color (Some 2) 1 = Ok (py "hsl(0, 75%, 38%)", py "#fff").
Proof.
  pose proof one_pos as H1.
  split; [|split; [|split; [|by vm_compute]]].
  - intros rank total Htotal Hrank.
    destruct (int_truediv_bounded (rank - 1) (Z.max (total - 1) 1))
      as (t & Ht & _); [lia..|].
    eexists. by apply rank_color_hue.
  - intros rank total Htotal Hrank.
    destruct (truediv_excess rank total (2 ^ 52) ltac:(lia) ltac:(lia) Hrank)
      as (t & Ht & Hlo & Hhi).
    destruct (hue_excess (round64 ((2 ^ 52 + 1) * one) (2 ^ 52)) t)
      as (h & Hh & _ & Hneg); [by vm_compute|done|].
    exists h. split; [by rewrite <-Hh; apply rank_color_hue|].
    eapply Z.le_lt_trans; [exact Hneg|]. by vm_compute.
  - intros rank total Htotal Hrank.
    destruct (truediv_excess rank total 239 ltac:(lia) ltac:(lia) Hrank)
      as (t & Ht & Hlo & Hhi).
    destruct (hue_excess (round64 ((239 + 1) * one) 239) t)
      as (h & Hh & _ & Hneg); [by vm_compute|done|].
    set (h1 := - round64 (120 * one * round64 (round64 ((239 + 1) * one) 239 - one) 1) one) in *.
    assert (h1 < 0) as Hh1 by (by vm_compute).
    assert (rne_div (Z.abs h1) one = 1) as Hn1 by (by vm_compute).
    exists (rne_div (Z.abs h) one). split.
    + rewrite <-Hn1. apply rne_div_mono; lia.
    + destruct (rank_color_hue rank total _ Ht) as [_ ->]. rewrite Hh.
      unfold format_0f. destruct (Z.ltb_spec h 0); [reflexivity|lia].
Qed.

Lemma rank_color_unclamped_witness :
  (∃ bg, rank_color (Some 13) 12 = Ok (bg, py "#fff")) ∧
  (∃ h, rank_hue 13 12 = Ok (FFin h) ∧ h < 0) ∧
  (∃ n, 1 <= n ∧
        rank_color (Some 13) 12
        = Ok (py "hsl(-" ++ str_int n ++ py ", 75%, 38%)", py "#fff")).
Proof.
  destruct rank_color_unclamped as (Htotal & Hneg & Hshown & _).
  split; [|split].
  - apply Htotal; lia.
  - apply Hneg; lia.
  - apply Hshown; lia.
Defined.

(** The claim against the code.  With one slot, rank 2 exceeds [total] and
    its hue is 0, inside [0, 120]; a rank beyond the range of a float makes
    the division raise; a rank one above a very large [total] has [t]
    rounded to 1 and hue 0; a rank one above [total = 241] has a hue that
    is returned as "-0". *)
Lemma unclamped_counterexample :
  rank_hue 2 1 = Ok (of_int 0) ∧
  rank_color (Some 2) 1 = Ok (py "hsl(0, 75%, 38%)", py "#fff") ∧
  rank_color (Some (2 ^ 1024 + 1)) 1 = Raise OverflowError ∧
  rank_hue (2 ^ 60 + 1) (2 ^ 60) = Ok (of_int 0) ∧
  rank_color (Some 242) 241 = Ok (py "hsl(-0, 75%, 38%)", py "#fff").
Proof. by vm_compute. Qed.

(** ** C7: the hue falls as the rank rises *)

Lemma lift_pos : 0 < lift.
Proof. by vm_compute. Qed.

Lemma one_lift : one = lo * lift.
Proof. by vm_compute. Qed.

Lemma round64_lift a b :
  0 < b → in_range a b = true → round64 (a * lift) b = round64 a b * lift.
Proof.
  intros Hb. unfold in_range. intros [Ha%Z.eqb_eq|Ha%Z.leb_le]%orb_true_iff.
  - by subst a.
  - apply (round64_homog a b 1014); [done|lia|].
    apply Z.div_le_lower_bound; lia.
Qed.

Lemma of_units_lift x :
  Z.abs x < 2 ^ 80 → of_units (x * lift) = FFin (x * lift).
Proof.
  intros Hx. unfold of_units. pose proof lift_pos.
  assert (2 ^ 80 * lift < huge) by (by vm_compute).
  destruct (Z.ltb_spec (Z.abs (x * lift)) huge); [done|].
  rewrite Z.abs_mul, (Z.abs_eq lift) in * by lia. nia.
Qed.

(** [hue_lo] agrees with [rank_hue], and with what [format_0f] shows. *)
Lemma hue_lo_sound rank total h n :
  hue_lo rank total = Some (h, n) →
  rank_hue rank total = Ok (FFin (h * lift)) ∧
  (0 <= h → rank_color (Some rank) total = hsl n).
Proof.
  unfold hue_lo.
  set (b := Z.max (total - 1) 1). set (a := (rank - 1) * lo).
  set (t := round64 a b). set (d := 1 * lo - t). set (s := round64 d 1).
  set (m := 120 * s).
  destruct (in_range a b) eqn:Ra; [|done].
  destruct (in_range d 1) eqn:Rd; [|done].
  destruct (in_range m 1) eqn:Rm; [|done].
  destruct (Z.ltb_spec (Z.abs t) (2 ^ 80)) as [Ht|]; [|done].
  destruct (Z.ltb_spec (Z.abs s) (2 ^ 80)) as [Hs|]; [|done].
  destruct (Z.ltb_spec (Z.abs (round64 m 1)) (2 ^ 80)) as [Hh|]; [|done].
  cbn [andb]. intros [= <- <-].
  pose proof lift_pos as Hl. assert (0 < lo) as Hlo by (by vm_compute).
  assert (0 < b) as Hb by (unfold b; lia).
  assert (int_truediv (rank - 1) b = Ok (FFin (t * lift))) as Hdiv.
  { rewrite int_truediv_pos by done.
    replace ((rank - 1) * one) with (a * lift) by (rewrite one_lift; unfold a; lia).
    rewrite round64_lift by done. fold t.
    pose proof (of_units_lift t Ht) as Hof. unfold of_units in Hof.
    by destruct (_ <? huge). }
  assert (fmul (of_int 120) (fsub (of_int 1) (FFin (t * lift)))
          = FFin (round64 m 1 * lift)) as Hhue.
  { unfold fsub, fmul, of_int.
    replace (1 * one - t * lift) with (d * lift) by (rewrite one_lift; unfold d; lia).
    rewrite round64_lift by (done || lia). fold s.
    rewrite of_units_lift by done.
    replace (120 * one * (s * lift)) with (m * lift * one) by (unfold m; lia).
    rewrite <-(Z.mul_1_l one) at 2.
    rewrite round64_scale, round64_lift by (done || lia || apply one_pos).
    by apply of_units_lift. }
  destruct (rank_color_hue rank total _ Hdiv) as [Hrh Hrc].
  rewrite Hhue in Hrh, Hrc. split; [done|].
  intros Hpos. rewrite Hrc. unfold hsl, format_0f.
  destruct (Z.ltb_spec (round64 m 1 * lift) 0); [nia|].
  rewrite Z.abs_mul, (Z.abs_eq lift), one_lift, rne_div_scale by lia.
  reflexivity.
Qed.

Lemma elem_of_range1 n x : 1 <= x <= n → In x (range1 n).
Proof.
  intros Hx. unfold range1. apply in_map_iff. exists (Z.to_nat x).
  split; [lia|]. apply in_seq. lia.
Qed.

Lemma falls_at total n rank h0 k0 (j : nat) :
  falls total n rank (h0, k0) = true → (j < n)%nat →
  ∃ h k,
    hue_lo (rank + Z.of_nat j) total = Some (h, k) ∧
    h < h0 ∧ k < k0 ∧ 0 <= h ∧ 0 <= k ∧
    falls total (n - j - 1) (rank + Z.of_nat j + 1) (h, k) = true.
Proof.
  revert rank h0 k0 j. induction n as [|n IH]; intros rank h0 k0 j Hf Hj; [lia|].
  simpl in Hf. destruct (hue_lo rank total) as [[h k]|] eqn:E; [|done].
  repeat (apply andb_true_iff in Hf as [Hf ?]). cbn [fst snd] in *.
  destruct j as [|j].
  - exists h, k. rewrite Z.add_0_r.
    replace (S n - 0 - 1)%nat with n by lia.
    split; [done|]. repeat (split; [lia|]). done.
  - destruct (IH (rank + 1) h k j) as (h' & k' & E' & ? & ? & ? & ? & Hf');
      [done|lia|].
    exists h', k'.
    replace (rank + Z.of_nat (S j)) with (rank + 1 + Z.of_nat j) by lia.
    split; [done|]. repeat (split; [lia|]). done.
Qed.

Lemma small_boards_ok :
  forallb total_ok (map (fun i => i + 1) (range1 120)) = true.
Proof. by vm_compute. Qed.

Lemma hue_lo_falls total r1 r2 :
  2 <= total <= 121 → 1 <= r1 → r1 < r2 → r2 <= total →
  ∃ h1 n1 h2 n2,
    hue_lo r1 total = Some (h1, n1) ∧
    hue_lo r2 total = Some (h2, n2) ∧
    h2 < h1 ∧ n2 < n1 ∧ 0 <= h2 ∧ 0 <= n2 ∧ n1 <= 120.
Proof.
  intros Htotal Hr1 Hlt Hr2.
  pose proof small_boards_ok as Hall. rewrite forallb_forall in Hall.
  assert (total_ok total = true) as Hrow.
  { apply Hall, in_map_iff. exists (total - 1).
    split; [lia|]. apply elem_of_range1. lia. }
  unfold total_ok in Hrow.
  destruct (hue_lo 1 total) as [[h0 k0]|] eqn:E0; [|done].
  apply andb_true_iff in Hrow as [Hk0%Z.leb_le Hf].
  destruct (decide (r1 = 1)) as [->|Hne].
  - destruct (falls_at _ _ _ _ _ (Z.to_nat (r2 - 2)) Hf ltac:(lia))
      as (h2 & n2 & E2 & ? & ? & ? & ? & _).
    replace (2 + Z.of_nat (Z.to_nat (r2 - 2))) with r2 in E2 by lia.
    exists h0, k0, h2, n2. do 2 (split; [done|]). lia.
  - destruct (falls_at _ _ _ _ _ (Z.to_nat (r1 - 2)) Hf ltac:(lia))
      as (h1 & n1 & E1 & ? & ? & ? & ? & Hf1).
    replace (2 + Z.of_nat (Z.to_nat (r1 - 2))) with r1 in E1, Hf1 by lia.
    destruct (falls_at _ _ _ _ _ (Z.to_nat (r2 - r1 - 1)) Hf1 ltac:(lia))
      as (h2 & n2 & E2 & ? & ? & ? & ? & _).
    replace (r1 + 1 + Z.of_nat (Z.to_nat (r2 - r1 - 1))) with r2 in E2 by lia.
    exists h1, n1, h2, n2. do 2 (split; [done|]). lia.
Qed.

(** C7, within the range where it holds.  For 12 slots the hues returned
    for ranks 1 to 12 are 120, 109, 98, 87, 76, 65, 55, 44, 33, 22, 11, 0:
    strictly falling, with 65 and 55 (ranks 6 and 7) the nearest to 60.
    For every [total] from 2 to 121 and ranks [r1 < r2] in [1, total], the
    hue of [r1] is strictly greater than the hue of [r2], both as computed
    and as returned (rounded to an integer). *)
Theorem hue_decreasing :
  map (fun r => rank_color (Some r) 12) (range1 12)
  = map hsl [120; 109; 98; 87; 76; 65; 55; 44; 33; 22; 11; 0] ∧
  (∀ total r1 r2, 2 <= total <= 121 → 1 <= r1 → r1 < r2 → r2 <= total →
     ∃ x1 x2 h1 h2,
       rank_hue r1 total = Ok (FFin x1) ∧
       rank_hue r2 total = Ok (FFin x2) ∧
       x2 < x1 ∧
       rank_color (Some r1) total = hsl h1 ∧
       rank_color (Some r2) total = hsl h2 ∧
       0 <= h2 < h1 ∧ h1 <= 120).
Proof.
  split; [by vm_compute|].
  intros total r1 r2 Htotal Hr1 Hlt Hr2.
  destruct (hue_lo_falls total r1 r2 Htotal Hr1 Hlt Hr2)
    as (h1 & n1 & h2 & n2 & E1 & E2 & Hh & Hn & Hh2 & Hn2 & Hn1).
  destruct (hue_lo_sound _ _ _ _ E1) as [Hx1 Hc1].
  destruct (hue_lo_sound _ _ _ _ E2) as [Hx2 Hc2].
  pose proof lift_pos.
  exists (h1 * lift), (h2 * lift), n1, n2.
  split; [done|]. split; [done|]. split; [nia|].
  split; [apply Hc1; lia|]. split; [by apply Hc2|]. lia.
Qed.

Lemma hue_decreasing_witness :
  ∃ x1 x2 h1 h2,
    rank_hue 6 12 = Ok (FFin x1) ∧
    rank_hue 7 12 = Ok (FFin x2) ∧
    x2 < x1 ∧
    rank_color (Some 6) 12 = hsl h1 ∧
    rank_color (Some 7) 12 = hsl h2 ∧
    0 <= h2 < h1 ∧ h1 <= 120.
Proof. apply (proj2 hue_decreasing 12 6 7); lia. Defined.

(** The claim's "every total" against the code: with 122 slots the ranks
    61 and 62 are both returned as hue 60, and with [2^54 + 2] slots the
    last two ranks both have [t] rounded to 1 and hue 0. *)
Lemma hue_plateau_counterexample :
  rank_color (Some 61) 122 = hsl 60 ∧
  rank_color (Some 62) 122 = hsl 60 ∧
  rank_hue (2 ^ 54 + 1) (2 ^ 54 + 2) = Ok (of_int 0) ∧
  rank_hue (2 ^ 54 + 2) (2 ^ 54 + 2) = Ok (of_int 0).
Proof. by vm_compute. Qed.

(** * Further properties of the code *)

(** ** What a returned board holds *)

Lemma build_board_inv picks b :
  build_board picks = Ok b →
  ∃ ns nr,
    picks ≠ [] ∧
    column_max (resolve_draft_order picks) = Some ns ∧
    column_max (map (fun p => Some (round p)) picks) = Some nr ∧
    NoDup (coordinates picks) ∧
    b = {| text_grid :=
             reindex_fill
               (list_to_map (zip (coordinates picks) (map (fun p => Some (cell_text p)) picks)))
               nr ns;
           pos_grid :=
             reindex_fill (list_to_map (zip (coordinates picks) (map position picks))) nr ns;
           col_labels :=
             map (col_label (zip (resolve_draft_order picks) picks)) (range1 ns);
           col_ranks :=
             map (fun slot => (col_label (zip (resolve_draft_order picks) picks) slot,
                               col_rank (zip (resolve_draft_order picks) picks) slot))
                 (range1 ns);
           num_slots := ns |}.
Proof.
  intros Hb. destruct (decide (picks = [])) as [->|Hne]; [done|].
  destruct (column_max (resolve_draft_order picks)) as [ns|] eqn:Hns.
  2:{ apply column_max_None in Hns. by rewrite build_board_no_slot in Hb. }
  destruct (max_round_is_Some picks Hne) as [nr Hnr].
  destruct (decide (NoDup (coordinates picks))) as [Hnd|Hnd].
  2:{ by rewrite (build_board_duplicate picks ns) in Hb. }
  exists ns, nr. rewrite (build_board_ok picks ns nr) in Hb by done.
  by injection Hb as <-.
Qed.

Lemma cell_text_nonempty p : cell_text p ≠ [].
Proof.
  unfold cell_text. intros H.
  destruct (strip _) as [|c s]; [by vm_compute in H|done].
Qed.

Lemma built_cell picks b (i : nat) p r s :
  build_board picks = Ok b →
  picks !! i = Some p → coordinates picks !! i = Some (r, Some s) →
  1 <= r → 1 <= s →
  grid_cell (text_grid b) r s = Some (cell_text p) ∧
  grid_cell (pos_grid b) r s = Some (_safe (position p)).
Proof.
  intros Hb Hp Hc Hr Hs.
  destruct (build_board_inv picks b Hb) as (ns & nr & Hne & Hns & Hnr & Hnd & ->).
  simpl.
  destruct (resolved_bounds picks ns nr i p r s Hns Hnr Hp Hc) as (_ & ? & ?).
  rewrite !reindex_fill_cell by lia.
  rewrite (pivot_cell_pick picks _ i p (r, Some s)) by done.
  by rewrite (pivot_cell_pick picks _ i p (r, Some s)) by done.
Qed.

(** X1. Whenever [build_board] returns on picks whose slots do not depend
    on the order of tied rows ([tie_free]), the grids hold exactly the picks:
    a pick that resolves to round [r >= 1] and slot [s >= 1] has its text in
    the cell [(r, s)] of the text grid and its position (the empty string
    when missing) in the same cell of the position grid; the text of a pick
    is never empty, and a cell no pick resolves to is the empty string. *)
Theorem board_cells (picks : list Pick) (b : Board) :
  build_board picks = Ok b →
  tie_free picks →
  (∀ i p r s, picks !! i = Some p →
     coordinates picks !! i = Some (r, Some s) → 1 <= r → 1 <= s →
     grid_cell (text_grid b) r s = Some (cell_text p) ∧
     grid_cell (pos_grid b) r s = Some (_safe (position p)) ∧
     cell_text p ≠ []) ∧
  (∀ r s txt, 1 <= r → 1 <= s → (r, Some s) ∉ coordinates picks →
     (grid_cell (text_grid b) r s = Some txt → txt = []) ∧
     (grid_cell (pos_grid b) r s = Some txt → txt = [])).
Proof.
  intros Hb _. split.
  - intros i p r s Hp Hc Hr Hs.
    destruct (built_cell picks b i p r s Hb Hp Hc Hr Hs) as [Htext Hpos].
    split; [done|]. split; [done|]. apply cell_text_nonempty.
  - destruct (build_board_inv picks b Hb) as (ns & nr & Hne & Hns & Hnr & Hnd & ->).
    simpl. intros r s txt Hr Hs Hout. split; intros Hcell.
    + destruct (grid_cell_range _ _ _ _ _ _ Hr Hs Hcell) as [Hrn Hsn].
      rewrite reindex_fill_cell in Hcell by lia.
      rewrite pivot_cell_none in Hcell by done. by injection Hcell as <-.
    + destruct (grid_cell_range _ _ _ _ _ _ Hr Hs Hcell) as [Hrn Hsn].
      rewrite reindex_fill_cell in Hcell by lia.
      rewrite pivot_cell_none in Hcell by done. by injection Hcell as <-.
Qed.

Lemma board_cells_witness :
  ∃ b, build_board incomplete_draft = Ok b ∧
       grid_cell (text_grid b) 1 2 = Some (py "—" ++ [10] ++ py "RB ·  (2)") ∧
       grid_cell (pos_grid b) 1 2 = Some (py "RB") ∧
       (∀ txt, grid_cell (text_grid b) 2 1 = Some txt → txt = []).
Proof.
  destruct (build_board incomplete_draft) as [b|e] eqn:Hb; [|by vm_compute in Hb].
  destruct (board_cells incomplete_draft b Hb) as [Hin Hout].
  { left. intros Hall. by apply Forall_inv in Hall. }
  exists b. split; [done|].
  destruct (Hin 1%nat _ 1 2 eq_refl eq_refl ltac:(lia) ltac:(lia)) as (Ht & Hp & _).
  split; [exact Ht|]. split; [exact Hp|].
  intros txt. apply (Hout 2 1 txt); [lia|lia|].
  apply (bool_decide_unpack (_ ∉ _)). vm_compute. exact I.
Defined.

(** ** The column labels *)

Lemma digits_app fuel n acc : digits fuel n acc = digits fuel n [] ++ acc.
Proof.
  revert n acc. induction fuel as [|fuel IH]; intros n acc; [done|]. simpl.
  destruct (n / 10 =? 0); [done|].
  rewrite IH, (IH _ [_]). by rewrite <-app_assoc.
Qed.

Lemma read_int_digits (fuel : nat) n :
  0 <= n < 2 ^ Z.of_nat fuel →
  ∃ k, 0 <= k ∧ ∀ a0 rest,
    read_int a0 (digits fuel n [] ++ rest) = read_int (a0 * 10 ^ k + n) rest.
Proof.
  revert n. induction fuel as [|fuel IH]; intros n Hn.
  - exists 0. split; [done|]. intros a0 rest. simpl. f_equal. simpl in Hn. lia.
  - assert (0 <= n mod 10 < 10) as Hd by (apply Z.mod_pos_bound; lia).
    assert (n = 10 * (n / 10) + n mod 10) as Hdiv by (apply Z.div_mod; lia).
    simpl digits. destruct (Z.eqb_spec (n / 10) 0) as [H0|H0].
    + exists 1. split; [lia|]. intros a0 rest. simpl.
      destruct (Z.leb_spec 48 (48 + n mod 10)); [|lia].
      destruct (Z.leb_spec (48 + n mod 10) 57); [|lia]. simpl.
      f_equal. lia.
    + destruct (IH (n / 10)) as (k & Hk & Hread).
      { split; [apply Z.div_pos; lia|].
        apply Z.div_lt_upper_bound; [lia|].
        rewrite Nat2Z.inj_succ, Z.pow_succ_r in Hn by lia. lia. }
      exists (k + 1). split; [lia|]. intros a0 rest.
      rewrite digits_app, <-app_assoc, Hread. simpl.
      destruct (Z.leb_spec 48 (48 + n mod 10)); [|lia].
      destruct (Z.leb_spec (48 + n mod 10) 57); [|lia]. simpl.
      f_equal. rewrite Z.pow_add_r by lia. lia.
Qed.

(** [int(str(n) + rest)] reads [n] back when [rest] starts with no digit. *)
Lemma read_int_str_int n rest :
  0 <= n → read_int 0 (str_int n ++ rest) = read_int n rest.
Proof.
  intros Hn. unfold str_int. destruct (Z.ltb_spec n 0); [lia|]. simpl app.
  rewrite Z.abs_eq by lia.
  destruct (read_int_digits (S (Z.to_nat (Z.log2 n))) n) as (k & _ & Hread).
  { split; [done|]. rewrite Nat2Z.inj_succ, Z2Nat.id by apply Z.log2_nonneg.
    destruct (Z.eq_dec n 0) as [->|]; [done|].
    apply Z.log2_spec. lia. }
  by rewrite Hread.
Qed.

Lemma slot_of_col_label rows slot :
  0 <= slot → slot_of_label (col_label rows slot) = slot.
Proof.
  intros Hslot. unfold slot_of_label, col_label.
  change (py "Slot ") with [83; 108; 111; 116; 32].
  destruct (match team_info rows slot with Some _ => _ | None => _ end)
    as [|part parts].
  - change (read_int 0 (str_int slot) = slot).
    rewrite <-(app_nil_r (str_int slot)). by rewrite read_int_str_int.
  - rewrite <-app_assoc.
    change (read_int 0 (str_int slot ++ [10] ++ join_dot (part :: parts)) = slot).
    by rewrite read_int_str_int.
Qed.

Lemma NoDup_range1 n : NoDup (range1 n).
Proof.
  unfold range1. apply (NoDup_fmap_2 Z.of_nat), NoDup_seq.
Qed.

Lemma elem_of_range1_bounds n x : x ∈ range1 n → 1 <= x <= n.
Proof.
  unfold range1. intros (i & -> & Hi%elem_of_seq)%list_elem_of_fmap. lia.
Qed.

Lemma col_labels_NoDup rows ns : NoDup (map (col_label rows) (range1 ns)).
Proof.
  apply (NoDup_fmap_1 slot_of_label).
  change (NoDup (map slot_of_label (map (col_label rows) (range1 ns)))).
  rewrite map_map.
  rewrite (map_ext_in _ id).
  - rewrite map_id. apply NoDup_range1.
  - intros slot Hin%list_elem_of_In%elem_of_range1_bounds. unfold id.
    apply slot_of_col_label. lia.
Qed.

(** X2. The slot number can be read back from every column label of a
    returned board, so the labels are pairwise distinct: the dictionary
    [col_ranks], keyed by label, has one entry per slot, in slot order. *)
Theorem labels_name_their_slots (picks : list Pick) (b : Board) :
  build_board picks = Ok b →
  map slot_of_label (col_labels b) = range1 (num_slots b) ∧
  NoDup (col_labels b) ∧
  (col_ranks b).*1 = col_labels b.
Proof.
  intros Hb.
  destruct (build_board_inv picks b Hb) as (ns & nr & _ & _ & _ & _ & ->).
  simpl.
  assert (map slot_of_label
              (map (col_label (zip (resolve_draft_order picks) picks)) (range1 ns))
          = range1 ns) as Hread.
  { rewrite map_map. rewrite <-(map_id (range1 ns)) at 2.
    apply map_ext_in. intros slot Hin%list_elem_of_In%elem_of_range1_bounds.
    apply slot_of_col_label. lia. }
  split; [done|]. split.
  - apply col_labels_NoDup.
  - by rewrite <-list_fmap_compose.
Qed.

Lemma labels_name_their_slots_witness :
  ∃ b, build_board two_ranks = Ok b ∧
       map slot_of_label (col_labels b) = range1 (num_slots b) ∧
       NoDup (col_labels b) ∧
       (col_ranks b).*1 = col_labels b.
Proof.
  destruct (build_board two_ranks) as [b|e] eqn:Hb; [|by vm_compute in Hb].
  exists b. split; [done|]. by apply (labels_name_their_slots two_ranks).
Defined.

(** ** The header of a slot *)

Lemma team_info_first rows slot (i : nat) p :
  rows !! i = Some (Some slot, p) →
  (∀ j, (j < i)%nat → rows.*1 !! j ≠ Some (Some slot)) →
  team_info rows slot = Some p.
Proof.
  revert i. induction rows as [|[d q] rows IH]; intros i Hi Hfirst; [done|].
  simpl. destruct i as [|i].
  - injection Hi as -> ->. by rewrite bool_decide_eq_true_2.
  - rewrite bool_decide_eq_false_2.
    + apply (IH i); [done|]. intros j Hj. apply (Hfirst (S j)). lia.
    + intros ->. by apply (Hfirst 0%nat); [lia|].
Qed.

Lemma team_info_elem rows slot p :
  team_info rows slot = Some p → (Some slot, p) ∈ rows.
Proof.
  induction rows as [|[d q] rows IH]; [done|]. simpl.
  destruct (bool_decide_reflect (d = Some slot)) as [->|].
  - intros [= ->]. left.
  - intros H. right. by apply IH.
Qed.

(** An integer up to [2^53] in magnitude is a float64. *)
Lemma int_float_exact n : Z.abs n <= 2 ^ 53 → int_float n = n.
Proof.
  intros Hn. unfold int_float. pose proof one_pos as Hone.
  assert (round64 (Z.abs n * one) 1 = Z.abs n * one) as ->.
  { set (a := Z.abs n) in *.
    destruct (Z.eq_dec a 0) as [->|Hne]; [done|].
    destruct (Z.eq_dec a (2 ^ 53)) as [->|Hmax]; [by vm_compute|].
    assert (0 < a < 2 ^ 53) as Ha by lia.
    assert (0 <= Z.log2 a <= 52) as HL.
    { split; [apply Z.log2_nonneg|].
      apply Z.lt_succ_r, Z.log2_lt_pow2; lia. }
    assert (Z.log2 (a * one) = 1074 + Z.log2 a) as Hlog
      by (unfold one; apply Z.log2_mul_pow2; lia).
    unfold round64, quantum.
    rewrite (Z.abs_eq (a * one)) by nia.
    rewrite Z.sgn_pos by nia.
    rewrite Z.div_1_r, Hlog, !Z.mul_1_l.
    rewrite Z.max_r by lia.
    replace (a * one)
      with (a * 2 ^ (52 - Z.log2 a) * 2 ^ (1074 + Z.log2 a - 52)).
    { rewrite rne_div_exact; [done|]. apply Z.pow_pos_nonneg; lia. }
    unfold one. rewrite <-Z.mul_assoc, <-Z.pow_add_r by lia.
    do 2 f_equal. lia. }
  rewrite Z.div_mul by lia.
  destruct (Z.sgn_spec n) as [[? ->]|[[? ->]|[? ->]]]; lia.
Qed.

(** X3. When the slots do not depend on the order of tied rows
    ([tie_free]), the header of a slot is taken from the first pick, in
    input order, that resolves to the slot ([drop_duplicates] keeps the
    first row): for a rank of at most [2^53] in magnitude (which a float64
    row keeps), the label and the rank of the slot are those of that pick
    alone, whatever the later picks of the slot say.  A rank of 0 counts as
    no rank, and with neither rank nor points the label is just
    ["Slot N"]. *)
Theorem header_from_first_pick (picks : list Pick) (b : Board)
    (i : nat) (p : Pick) (slot : Z) :
  build_board picks = Ok b →
  tie_free picks →
  picks !! i = Some p →
  resolve_draft_order picks !! i = Some (Some slot) →
  (∀ j, (j < i)%nat → resolve_draft_order picks !! j ≠ Some (Some slot)) →
  1 <= slot →
  (∀ r, league_rank p = Some r → Z.abs r <= 2 ^ 53) →
  col_labels b !! Z.to_nat (slot - 1) = Some (col_label [(Some slot, p)] slot) ∧
  col_ranks b !! Z.to_nat (slot - 1)
  = Some (col_label [(Some slot, p)] slot, rank_present (league_rank p)) ∧
  (league_rank p = Some 0 → rank_present (league_rank p) = None) ∧
  (rank_present (league_rank p) = None →
   points_present (league_points p) = None →
   col_label [(Some slot, p)] slot = py "Slot " ++ str_int slot).
Proof.
  intros Hb _ Hp Hd Hfirst Hslot Hsmall.
  destruct (build_board_inv picks b Hb) as (ns & nr & _ & Hns & _ & _ & ->).
  simpl.
  assert (slot <= ns) as Hle.
  { apply column_max_Some in Hns as [_ Hmax].
    apply Hmax, elem_of_present, list_elem_of_lookup. by exists i. }
  set (rows := zip (resolve_draft_order picks) picks).
  assert (team_info rows slot = Some p) as Hinfo.
  { apply (team_info_first _ _ i).
    - unfold rows. rewrite lookup_zip_with, Hd. simpl. by rewrite Hp.
    - intros j Hj. unfold rows. rewrite fst_zip.
      + by apply Hfirst.
      + by rewrite length_resolve_draft_order. }
  assert (∀ r, rank_present (league_rank p) = Some r → int_float r = r) as Hexact.
  { intros r Hr. apply int_float_exact, Hsmall. unfold rank_present in Hr.
    destruct (league_rank p) as [r'|]; [|done].
    destruct (r' =? 0); [done|]. by injection Hr as ->. }
  assert (team_info [(Some slot, p)] slot = Some p) as Hone
    by (simpl; by rewrite bool_decide_eq_true_2).
  assert (col_label rows slot = col_label [(Some slot, p)] slot) as Hlabel.
  { unfold col_label. rewrite Hinfo, Hone.
    destruct (rank_present (league_rank p)) as [r|] eqn:Hr; [|done].
    rewrite (Hexact r eq_refl).
    by destruct (float_row rows), (float_row [(Some slot, p)]). }
  assert (col_rank rows slot = rank_present (league_rank p)) as Hrank.
  { unfold col_rank. rewrite Hinfo.
    destruct (rank_present (league_rank p)) as [r|] eqn:Hr; [|done]. simpl.
    rewrite (Hexact r eq_refl). by destruct (rank_column_float rows). }
  assert (range1 ns !! Z.to_nat (slot - 1) = Some slot) as Hrange.
  { rewrite lookup_range1 by lia. f_equal. lia. }
  split; [|split; [|split]].
  - by rewrite list_lookup_fmap, Hrange; simpl; rewrite Hlabel.
  - rewrite list_lookup_fmap, Hrange. simpl. by rewrite Hlabel, Hrank.
  - by intros ->.
  - intros Hr Hpts. unfold col_label. rewrite Hone. by rewrite Hr, Hpts.
Qed.

Lemma header_from_first_pick_witness :
  ∃ b, build_board two_ranks = Ok b ∧
       col_ranks b !! 0%nat
       = Some (py "Slot 1" ++ [10] ++ py "#3 · 1500pts", Some 3).
Proof.
  destruct (build_board two_ranks) as [b|e] eqn:Hb; [|by vm_compute in Hb].
  exists b. split; [done|].
  destruct (header_from_first_pick two_ranks b 0
              (ranked 1 1 "A" (Some 1) (Some 3) (Some (of_int 1500))) 1 Hb)
    as (_ & H1 & _);
    [left; intros Hall; by apply Forall_inv in Hall
    |reflexivity|reflexivity|intros j Hj; lia|lia
    |intros r [= <-]; by vm_compute|].
  vm_compute. vm_compute in H1. exact H1.
Defined.

(** ** The number of slots of a legacy draft *)

Lemma last_index_lt t l (j : nat) :
  last_index t l = Some j → (j < length l)%nat.
Proof.
  revert j. induction l as [|x l IH]; intros j; [done|]. simpl.
  destruct (last_index t l) as [k|].
  - intros [= <-]. specialize (IH k eq_refl). lia.
  - destruct (decide (x = t)); [|done]. intros [= <-]. lia.
Qed.

Lemma team_to_slot_last picks t :
  team_to_slot picks !! t
  = (fun j => Z.of_nat j + 1) <$> last_index t (map team_id (round1_sorted picks)).
Proof.
  unfold team_to_slot. rewrite enumerate_slots_lookup.
  destruct (last_index _ _); simpl; [f_equal; lia|done].
Qed.

(** X4. For a draft without [draft_order] in which no team picks twice in
    round 1, the number of slots of the returned board is the number of
    round-1 picks. *)
Theorem legacy_num_slots (picks : list Pick) (b : Board) :
  Forall (fun p => draft_order p = None) picks →
  NoDup (map team_id (filter (fun p => round p = 1) picks)) →
  build_board picks = Ok b →
  num_slots b = Z.of_nat (length (filter (fun p => round p = 1) picks)).
Proof.
  intros Hnone Hnd Hb.
  destruct (build_board_inv picks b Hb) as (ns & nr & _ & Hns & _ & _ & ->).
  simpl. apply column_max_Some in Hns as [Hin Hmax].
  rewrite (resolve_legacy picks Hnone) in Hin, Hmax.
  set (tids := map team_id (round1_sorted picks)).
  assert (round1_sorted picks ≡ₚ filter (fun p => round p = 1) picks) as Hperm
    by apply sort_by_pick_perm.
  assert (length tids = length (filter (fun p => round p = 1) picks)) as Hlen
    by (unfold tids; by rewrite length_map, Hperm).
  assert (NoDup tids) as Hnd'.
  { unfold tids. change (NoDup (team_id <$> round1_sorted picks)).
    by rewrite Hperm. }
  assert (∀ x, x ∈ present (map (fun p => team_to_slot picks !! team_id p) picks) →
               1 <= x <= Z.of_nat (length tids)) as Hbound.
  { intros x Hx. apply elem_of_present, list_elem_of_fmap in Hx as (p & Hx & _).
    rewrite team_to_slot_last in Hx. fold tids in Hx.
    destruct (last_index (team_id p) tids) as [j|] eqn:Hj; [|done].
    apply last_index_lt in Hj. injection Hx as ->. lia. }
  rewrite <-Hlen. apply Z.le_antisymm; [by apply Hbound|].
  pose proof (Hbound ns Hin) as Hpos.
  destruct (lookup_lt_is_Some_2 tids (length tids - 1)) as [t Ht]; [lia|].
  apply Hmax, elem_of_present.
  assert (t ∈ team_id <$> round1_sorted picks) as Hq
    by (apply list_elem_of_lookup; by eexists).
  apply list_elem_of_fmap in Hq as (q & -> & Hq).
  rewrite Hperm in Hq. apply list_elem_of_filter in Hq as [_ Hq].
  apply list_elem_of_fmap. exists q. split; [|done].
  rewrite team_to_slot_last. fold tids.
  rewrite (last_index_NoDup _ _ _ Hnd' Ht). simpl. f_equal. lia.
Qed.

Lemma legacy_num_slots_witness :
  ∃ b, build_board bac_draft = Ok b ∧ num_slots b = 3.
Proof.
  destruct (build_board bac_draft) as [b|e] eqn:Hb; [|by vm_compute in Hb].
  exists b. split; [done|].
  apply (legacy_num_slots bac_draft b); [by repeat constructor| |done].
  apply (bool_decide_unpack (NoDup _)). vm_compute. exact I.
Defined.

(** ** The order of the rows *)

Lemma coordinates_explicit picks :
  ¬ Forall (fun p => draft_order p = None) picks →
  coordinates picks = map (fun p => (round p, draft_order p)) picks.
Proof.
  intros Hex. unfold coordinates. rewrite (resolve_explicit picks Hex).
  unfold zip. change (zip_with pair (round <$> picks) (draft_order <$> picks)
                      = (fun p => (round p, draft_order p)) <$> picks).
  by rewrite zip_with_fmap_l, zip_with_fmap_r, zip_with_diag.
Qed.

Lemma zip_coordinates_explicit {V} picks (f : Pick → V) :
  ¬ Forall (fun p => draft_order p = None) picks →
  zip (coordinates picks) (map f picks)
  = map (fun p => (round p, draft_order p, f p)) picks.
Proof.
  intros Hex. rewrite (coordinates_explicit picks Hex).
  change (zip_with pair ((fun p => (round p, draft_order p)) <$> picks) (f <$> picks)
          = (fun p => (round p, draft_order p, f p)) <$> picks).
  by rewrite zip_with_fmap_l, zip_with_fmap_r, zip_with_diag.
Qed.

Lemma is_max_unique m m' l l' : l ≡ₚ l' → is_max m l → is_max m' l' → m = m'.
Proof.
  intros Hperm [Hin Hmax] [Hin' Hmax'].
  apply Z.le_antisymm.
  - apply Hmax'. by rewrite <-Hperm.
  - apply Hmax. by rewrite Hperm.
Qed.

Lemma column_max_perm col col' : col ≡ₚ col' → column_max col = column_max col'.
Proof.
  intros Hperm.
  assert (present col ≡ₚ present col') as Hp
    by (unfold present; by rewrite Hperm).
  destruct (column_max col) as [m|] eqn:Hm, (column_max col') as [m'|] eqn:Hm';
    [| | |done].
  - f_equal. apply column_max_Some in Hm, Hm'. by apply (is_max_unique _ _ _ _ Hp).
  - apply column_max_Some in Hm as [Hin _]. apply column_max_None in Hm'.
    rewrite Hp, Hm' in Hin. by apply elem_of_nil in Hin.
  - apply column_max_Some in Hm' as [Hin _]. apply column_max_None in Hm.
    rewrite <-Hp, Hm in Hin. by apply elem_of_nil in Hin.
Qed.

(** X5. When the draft orders are given, the grids do not depend on the
    order in which the rows arrive: a permutation of the picks gives the
    same text grid, the same position grid and the same number of slots
    (only the headers, taken from the first pick of each slot, may
    differ). *)
Theorem grids_ignore_row_order (picks picks' : list Pick) (b : Board) :
  picks ≡ₚ picks' →
  ¬ Forall (fun p => draft_order p = None) picks →
  build_board picks = Ok b →
  ∃ b', build_board picks' = Ok b' ∧
        text_grid b' = text_grid b ∧
        pos_grid b' = pos_grid b ∧
        num_slots b' = num_slots b.
Proof.
  intros Hperm Hex Hb.
  destruct (build_board_inv picks b Hb) as (ns & nr & Hne & Hns & Hnr & Hnd & ->).
  assert (¬ Forall (fun p => draft_order p = None) picks') as Hex'
    by (by rewrite <-Hperm).
  assert (picks' ≠ []) as Hne'.
  { intros ->. by apply Permutation_nil_r in Hperm. }
  assert (coordinates picks ≡ₚ coordinates picks') as Hcoord.
  { rewrite !coordinates_explicit by done.
    change ((fun p => (round p, draft_order p)) <$> picks
            ≡ₚ (fun p => (round p, draft_order p)) <$> picks').
    by rewrite Hperm. }
  assert (NoDup (coordinates picks')) as Hnd' by (by rewrite <-Hcoord).
  assert (column_max (resolve_draft_order picks') = Some ns) as Hns'.
  { rewrite <-Hns. apply column_max_perm. rewrite !resolve_explicit by done.
    change (draft_order <$> picks' ≡ₚ draft_order <$> picks). by rewrite Hperm. }
  assert (column_max (map (fun p => Some (round p)) picks') = Some nr) as Hnr'.
  { rewrite <-Hnr. apply column_max_perm.
    change ((fun p => Some (round p)) <$> picks'
            ≡ₚ (fun p => Some (round p)) <$> picks). by rewrite Hperm. }
  eexists. split; [by apply (build_board_ok picks' ns nr)|]. simpl.
  assert (∀ V (f : Pick → V),
            (list_to_map (zip (coordinates picks') (map f picks'))
             : gmap (Z * option Z) V)
            = list_to_map (zip (coordinates picks) (map f picks))) as Hmap.
  { intros V f. apply list_to_map_proper.
    - by rewrite fst_zip_coordinates.
    - rewrite !zip_coordinates_explicit by done.
      change ((fun p => (round p, draft_order p, f p)) <$> picks'
              ≡ₚ (fun p => (round p, draft_order p, f p)) <$> picks).
      by rewrite Hperm. }
  by rewrite !Hmap.
Qed.

Lemma grids_ignore_row_order_witness :
  ∃ b b', build_board incomplete_draft = Ok b ∧
          build_board (rev incomplete_draft) = Ok b' ∧
          text_grid b' = text_grid b ∧
          pos_grid b' = pos_grid b ∧
          num_slots b' = num_slots b.
Proof.
  destruct (build_board incomplete_draft) as [b|e] eqn:Hb; [|by vm_compute in Hb].
  destruct (grids_ignore_row_order incomplete_draft (rev incomplete_draft) b)
    as (b' & Hb' & Hgrids); [apply Permutation_rev| |done|].
  { intros Hall. by apply Forall_inv in Hall. }
  by exists b, b'.
Defined.

(** ** The colors of the headers *)

Lemma round64_pow2_64 : round64 (2 ^ 64 * one) 1 = 2 ^ 64 * one.
Proof. by vm_compute. Qed.

Lemma int_truediv_int64 k b :
  0 < b → Z.abs k <= 2 ^ 64 → ∃ t, int_truediv k b = Ok (FFin t).
Proof.
  intros Hb Hk. rewrite int_truediv_pos by done.
  assert (2 ^ 64 * one < huge) as Hhuge by (by vm_compute).
  pose proof one_pos as Hone.
  assert (∀ a, 0 <= a <= 2 ^ 64 → 0 <= round64 (a * one) b <= 2 ^ 64 * one) as Hpos.
  { intros a Ha. split; [apply round64_nonneg; [done|nia]|].
    rewrite <-round64_pow2_64. apply round64_mono; [done|lia|nia|nia]. }
  destruct (Z.ltb_spec (Z.abs (round64 (k * one) b)) huge) as [|Hge];
    [by eexists|].
  destruct (Z.le_gt_cases 0 k) as [Hk0|Hk0].
  - pose proof (Hpos k ltac:(lia)). lia.
  - pose proof (Hpos (- k) ltac:(lia)) as Hneg.
    replace (- k * one) with (- (k * one)) in Hneg by lia.
    rewrite round64_opp in Hneg. lia.
Qed.

Lemma rank_color_int64 rank total :
  Z.abs rank <= 2 ^ 63 →
  ∃ bg, rank_color (Some rank) total = Ok (bg, py "#fff").
Proof.
  intros Hrank.
  destruct (int_truediv_int64 (rank - 1) (Z.max (total - 1) 1)) as [t Ht];
    [lia|lia|].
  destruct (rank_color_hue rank total _ Ht) as [_ ->]. by eexists.
Qed.

(** A 64-bit integer stays within [2^63] in magnitude through a float64. *)
Lemma int_float_bound n : Z.abs n <= 2 ^ 63 → Z.abs (int_float n) <= 2 ^ 63.
Proof.
  intros Hn. unfold int_float. pose proof one_pos as Hone.
  assert (round64 (2 ^ 63 * one) 1 = 2 ^ 63 * one) as Hmax by (by vm_compute).
  assert (0 <= round64 (Z.abs n * one) 1 <= 2 ^ 63 * one) as [Hlo Hhi].
  { split; [apply round64_nonneg; [lia|nia]|].
    rewrite <-Hmax. apply round64_mono; [lia|lia|nia|nia]. }
  assert (0 <= round64 (Z.abs n * one) 1 / one <= 2 ^ 63) as Hq.
  { split; [apply Z.div_pos; lia|].
    apply Z.div_le_upper_bound; lia. }
  destruct (Z.sgn_spec n) as [[? ->]|[[? ->]|[? ->]]]; lia.
Qed.

Lemma header_styles_ok (cr : list (pystr * option Z)) (total : Z) :
  Forall (fun c => ∀ r, c.2 = Some r → Z.abs r <= 2 ^ 63) cr →
  ∃ styles,
    header_styles cr total = Ok styles ∧
    styles.*1 = cr.*1 ∧
    Forall (fun st => st.2 !! 1%nat = Some (py "color", py "#fff")) styles ∧
    ∀ (i : nat) label, cr !! i = Some (label, None) →
      ∃ props, styles !! i = Some (label, props) ∧
               background props = Some (py "#6c757d").
Proof.
  induction 1 as [|[name rank] cr Hrank _ IH].
  - exists []. split; [done|]. split; [done|]. split; [constructor|].
    by intros i label.
  - destruct IH as (styles & Hstyles & Hnames & Hcolor & Hgray).
    cbn [header_styles]. rewrite Hstyles.
    destruct rank as [r|].
    + destruct (rank_color_int64 r total (Hrank r eq_refl)) as [bg ->].
      eexists. split; [reflexivity|]. split; [by rewrite !fmap_cons, Hnames|].
      split; [by constructor|].
      intros [|i] label; simpl; [done|]. apply Hgray.
    + eexists. split; [reflexivity|]. split; [by rewrite !fmap_cons, Hnames|].
      split; [by constructor|].
      intros [|i] label; simpl; [|apply Hgray].
      intros [= <-]. by eexists.
Qed.

(** X6. For a returned board whose league ranks fit 64-bit integers,
    building the header styles never raises, whatever the number of slots
    (the denominator of [rank_color] is at least 1): every column label
    gets one rule, in slot order, with the white text color, and a slot
    without a rank gets the neutral gray background. *)
Theorem header_styles_defined (picks : list Pick) (b : Board) :
  build_board picks = Ok b →
  Forall (fun p => ∀ r, league_rank p = Some r → - 2 ^ 63 <= r < 2 ^ 63) picks →
  ∃ styles,
    header_styles (col_ranks b) (num_slots b) = Ok styles ∧
    styles.*1 = col_labels b ∧
    Forall (fun st => st.2 !! 1%nat = Some (py "color", py "#fff")) styles ∧
    ∀ (i : nat) label, col_ranks b !! i = Some (label, None) →
      ∃ props, styles !! i = Some (label, props) ∧
               background props = Some (py "#6c757d").
Proof.
  intros Hb Hranks.
  destruct (build_board_inv picks b Hb) as (ns & nr & _ & _ & _ & _ & ->).
  cbn [col_ranks col_labels num_slots].
  set (rows := zip (resolve_draft_order picks) picks).
  destruct (header_styles_ok
              (map (fun slot => (col_label rows slot, col_rank rows slot)) (range1 ns))
              ns) as (styles & Hstyles & Hnames & Hrest).
  { apply Forall_forall. intros c (slot & -> & _)%list_elem_of_fmap r. simpl.
    unfold col_rank.
    destruct (team_info rows slot) as [p|] eqn:Hinfo; [|done].
    apply team_info_elem, elem_of_zip_r in Hinfo.
    rewrite Forall_forall in Hranks. specialize (Hranks p Hinfo).
    unfold rank_present.
    destruct (league_rank p) as [r'|]; [|done].
    specialize (Hranks r' eq_refl).
    destruct (r' =? 0); [done|]. simpl. intros [= <-].
    destruct (rank_column_float rows); [apply int_float_bound|]; lia. }
  exists styles. split; [done|]. split; [|done].
  rewrite Hnames. change (map ?f ?l) with (f <$> l).
  by rewrite <-list_fmap_compose.
Qed.

Lemma header_styles_defined_witness :
  ∃ b styles,
    build_board two_ranks = Ok b ∧
    header_styles (col_ranks b) (num_slots b) = Ok styles ∧
    styles.*1 = col_labels b.
Proof.
  destruct (build_board two_ranks) as [b|e] eqn:Hb; [|by vm_compute in Hb].
  destruct (header_styles_defined two_ranks b Hb) as (styles & Hs & Hn & _).
  { unfold two_ranks.
    repeat (apply Forall_cons_2; [simpl; intros r [= <-]; lia|]).
    apply Forall_nil_2. }
  by exists b, styles.
Defined.

(** ** The [.env] file *)

Lemma setdefault_keeps key value env env' :
  setdefault key value env = Ok env' →
  env ⊆ env' ∧ is_Some (env' !! key).
Proof.
  unfold setdefault. destruct (env !! key) as [v|] eqn:Hk.
  - intros [= <-]. split; [done|]. by rewrite Hk.
  - destruct (bool_decide _); [done|]. destruct (bool_decide _); [done|].
    destruct (bool_decide _); [done|].
    intros [= <-]. split; [by apply insert_subseteq|].
    rewrite lookup_insert_eq. by eexists.
Qed.

Lemma setdefault_again (key value : pystr) (e : gmap pystr pystr) :
  is_Some (e !! key) → setdefault key value e = Ok e.
Proof. unfold setdefault. by intros [v ->]. Qed.

(** Either a line changes no environment, or it is [setdefault] of one
    name and value. *)
Lemma env_line_cases _line :
  (∀ e, env_line e _line = Ok e) ∨
  (∃ k v, ∀ e, env_line e _line = setdefault k v e).
Proof.
  unfold env_line. destruct (strip _line) as [|c s]; [by left|].
  destruct (c =? 35); [by left|].
  destruct (split_eq (c :: s)) as [[k v]|]; [|by left].
  right. by exists (strip k), (strip v).
Qed.

Lemma env_line_keeps env _line env' :
  env_line env _line = Ok env' → env ⊆ env'.
Proof.
  destruct (env_line_cases _line) as [H|(k & v & H)]; rewrite H.
  - by intros [= <-].
  - by intros [? _]%setdefault_keeps.
Qed.

Lemma env_line_again env _line env' e :
  env_line env _line = Ok env' → env' ⊆ e → env_line e _line = Ok e.
Proof.
  destruct (env_line_cases _line) as [H|(k & v & H)]; rewrite !H; [done|].
  intros [_ [w Hw]]%setdefault_keeps Hsub.
  apply setdefault_again. exists w. by apply (lookup_weaken env').
Qed.

Lemma load_env_cons _line rest env env' :
  load_env (_line :: rest) env = Ok env' →
  ∃ env1, env_line env _line = Ok env1 ∧ load_env rest env1 = Ok env'.
Proof.
  simpl. destruct (env_line env _line) as [env1|]; [|done]. by exists env1.
Qed.

Lemma load_env_keeps lines env env' :
  load_env lines env = Ok env' → env ⊆ env'.
Proof.
  revert env. induction lines as [|_line rest IH]; intros env.
  - by intros [= <-].
  - intros (env1 & H1 & Hrest)%load_env_cons.
    transitivity env1; [by apply (env_line_keeps _ _line)|by apply IH].
Qed.

Lemma load_env_app l1 l2 env :
  load_env (l1 ++ l2) env = (env1 ← load_env l1 env; load_env l2 env1).
Proof.
  revert env. induction l1 as [|_line l1 IH]; intros env; [done|]. simpl.
  destruct (env_line env _line); [apply IH|done].
Qed.

(** X7. The [.env] file never changes a variable that is set: a variable of
    the process environment keeps its value, and what an earlier line of the
    file has set, no later line changes.  So [SUPABASE_KEY] is the value of
    the process environment whenever that has one. *)
Theorem environment_wins (lines : list pystr) (env env' : gmap pystr pystr) :
  load_env lines env = Ok env' →
  (∀ k v, env !! k = Some v → env' !! k = Some v) ∧
  (∀ l1 l2, lines = l1 ++ l2 →
     ∃ env1, load_env l1 env = Ok env1 ∧
             ∀ k v, env1 !! k = Some v → env' !! k = Some v) ∧
  (∀ v, env !! py "SUPABASE_ANON_KEY" = Some v →
        SUPABASE_KEY (Some lines) env = Ok v).
Proof.
  intros Hload. pose proof (load_env_keeps _ _ _ Hload) as Hsub.
  split; [|split].
  - intros k v Hk. by apply (lookup_weaken env).
  - intros l1 l2 ->. rewrite load_env_app in Hload.
    destruct (load_env l1 env) as [env1|]; [|done]. simpl in Hload.
    exists env1. split; [done|]. intros k v Hk.
    apply (lookup_weaken env1); [done|]. by apply (load_env_keeps l2).
  - intros v Hv. unfold SUPABASE_KEY. rewrite Hload. simpl.
    by rewrite (lookup_weaken _ _ _ _ Hv Hsub).
Qed.

Lemma environment_wins_witness :
  SUPABASE_KEY (Some [py "SUPABASE_ANON_KEY=from-file"])
               {[ py "SUPABASE_ANON_KEY" := py "from-env" ]}
  = Ok (py "from-env").
Proof.
  eapply (environment_wins [py "SUPABASE_ANON_KEY=from-file"]);
    [reflexivity|reflexivity].
Defined.

(** *** One line of the file *)

Lemma lstrip_pad p s : blank p = true → lstrip (p ++ s) = lstrip s.
Proof.
  induction p as [|c p IH]; [done|]. simpl.
  intros [-> Hp]%andb_true_iff. by apply IH.
Qed.

Lemma lstrip_mid u c t :
  isspace c = false → lstrip (u ++ c :: t) = lstrip u ++ c :: t.
Proof.
  intros Hc. induction u as [|d u IH]; simpl; [by rewrite Hc|].
  by destruct (isspace d).
Qed.

Lemma lstrip_lstrip s : lstrip (lstrip s) = lstrip s.
Proof.
  induction s as [|c s IH]; [done|]. simpl.
  destruct (isspace c) eqn:Hc; [done|]. simpl. by rewrite Hc.
Qed.

Lemma rstrip_mid a c w :
  isspace c = false → rstrip (a ++ c :: w) = a ++ c :: rstrip w.
Proof.
  intros Hc. unfold rstrip.
  rewrite rev_app_distr. simpl. rewrite <-app_assoc. simpl.
  rewrite lstrip_mid by done.
  rewrite rev_app_distr. simpl. by rewrite rev_involutive, <-app_assoc.
Qed.

Lemma rstrip_blank w : blank w = true → rstrip w = [].
Proof.
  intros Hw. unfold rstrip.
  assert (lstrip (rev w) = []) as -> by (by apply lstrip_nil; rewrite blank_rev).
  done.
Qed.

Lemma rstrip_rstrip w : rstrip (rstrip w) = rstrip w.
Proof. unfold rstrip. by rewrite rev_involutive, lstrip_lstrip. Qed.

(** A string is blank, or some white space followed by another character. *)
Lemma blank_or_text w :
  blank w = true ∨ ∃ p c t, w = p ++ c :: t ∧ blank p = true ∧ isspace c = false.
Proof.
  induction w as [|c w IH]; [by left|].
  destruct (isspace c) eqn:Hc.
  - destruct IH as [Hw|(p & d & t & -> & Hp & Hd)].
    + left. simpl. by rewrite Hc.
    + right. exists (c :: p), d, t. split; [done|]. simpl. by rewrite Hc.
  - right. by exists [], c, w.
Qed.

Lemma lstrip_rstrip w : lstrip (rstrip w) = rstrip (lstrip w).
Proof.
  destruct (blank_or_text w) as [Hw|(p & c & t & -> & Hp & Hc)].
  - rewrite (rstrip_blank w Hw). apply lstrip_nil in Hw. by rewrite Hw.
  - rewrite rstrip_mid by done. rewrite !lstrip_pad by done.
    change (lstrip (c :: rstrip t))
      with (if isspace c then lstrip (rstrip t) else c :: rstrip t).
    change (lstrip (c :: t)) with (if isspace c then lstrip t else c :: t).
    rewrite Hc. symmetry. apply (rstrip_mid [] c t Hc).
Qed.

Lemma strip_rstrip w : strip (rstrip w) = strip w.
Proof. unfold strip. by rewrite lstrip_rstrip, rstrip_rstrip. Qed.

Lemma trimmed_ends k :
  trimmed k = true →
  ∃ c t d u, k = c :: t ∧ k = u ++ [d] ∧ isspace c = false ∧ isspace d = false.
Proof.
  unfold trimmed. destruct k as [|c t]; [done|].
  destruct (rev (c :: t)) as [|d u] eqn:Hrev; [done|].
  intros [Hc%negb_true_iff Hd%negb_true_iff]%andb_true_iff.
  exists c, t, d, (rev u). split; [done|]. split; [|done].
  rewrite <-(rev_involutive (c :: t)), Hrev. done.
Qed.

Lemma strip_name k p : trimmed k = true → blank p = true → strip (k ++ p) = k.
Proof.
  intros (c & t & d & u & Hk & Hk' & Hc & Hd)%trimmed_ends Hp.
  unfold strip.
  assert (lstrip (k ++ p) = k ++ p) as -> by (rewrite Hk; simpl; by rewrite Hc).
  rewrite Hk', <-app_assoc. simpl. rewrite rstrip_mid by done.
  by rewrite rstrip_blank.
Qed.

Lemma split_eq_first k r : 61 ∉ k → split_eq (k ++ 61 :: r) = Some (k, r).
Proof.
  induction k as [|c k IH]; [done|]. intros Hk. simpl.
  destruct (Z.eqb_spec c 61) as [->|_]; [destruct Hk; left|].
  rewrite IH; [done|]. intros ?. apply Hk. by right.
Qed.

Lemma blank_no_eq p : blank p = true → 61 ∉ p.
Proof.
  intros Hp Hin. unfold blank in Hp. rewrite forallb_forall in Hp.
  by specialize (Hp 61 (proj1 (list_elem_of_In _ _) Hin)).
Qed.

Lemma lstrip_subset x s : In x (lstrip s) → In x s.
Proof.
  induction s as [|e s IH]; [done|]. simpl.
  destruct (isspace e); [intros ?; right; by apply IH|done].
Qed.

Lemma strip_subset x w : x ∈ strip w → x ∈ w.
Proof.
  rewrite !list_elem_of_In. unfold strip, rstrip.
  intros Hin%in_rev%lstrip_subset%in_rev. by apply lstrip_subset.
Qed.

(** X8. A line [NAME = text], with any white space around the name, sets
    the variable [NAME] by default to [text] with the white space at its
    two ends removed: the value is everything after the first ["="], so it
    may hold ["="] and ["#"] itself.  When the name is not set yet and
    neither holds a NUL character, the variable is added. *)
Theorem assignment_line (env : gmap pystr pystr) (p1 k p2 w : pystr) :
  blank p1 = true → blank p2 = true → trimmed k = true →
  61 ∉ k → head k ≠ Some 35 →
  env_line env (p1 ++ k ++ p2 ++ [61] ++ w) = setdefault k (strip w) env ∧
  (env !! k = None → 0 ∉ k → 0 ∉ w →
   env_line env (p1 ++ k ++ p2 ++ [61] ++ w) = Ok (<[k := strip w]> env)).
Proof.
  intros Hp1 Hp2 Hk Hno Hhash.
  destruct (trimmed_ends k Hk) as (c & t & d & u & Hkc & Hkd & Hc & Hd).
  assert (strip (p1 ++ k ++ p2 ++ [61] ++ w) = (k ++ p2) ++ 61 :: rstrip w) as Hline.
  { unfold strip. rewrite lstrip_pad by done.
    assert (lstrip (k ++ p2 ++ [61] ++ w) = k ++ p2 ++ [61] ++ w) as ->
      by (rewrite Hkc; simpl; by rewrite Hc).
    rewrite (app_assoc k p2). simpl. by rewrite rstrip_mid. }
  assert (env_line env (p1 ++ k ++ p2 ++ [61] ++ w) = setdefault k (strip w) env)
    as Henv.
  { unfold env_line. rewrite Hline.
    destruct ((k ++ p2) ++ 61 :: rstrip w) as [|c0 s] eqn:Hs.
    { rewrite Hkc in Hs. done. }
    assert (c0 = c) as -> by (rewrite Hkc in Hs; by injection Hs).
    destruct (Z.eqb_spec c 35) as [->|_]; [by rewrite Hkc in Hhash|].
    rewrite <-Hs, split_eq_first.
    - by rewrite strip_name, strip_rstrip.
    - intros [?|?%blank_no_eq]%elem_of_app; done. }
  split; [done|]. intros Hfree Hk0 Hw0. rewrite Henv. unfold setdefault.
  rewrite Hfree. rewrite bool_decide_eq_false_2.
  - rewrite (bool_decide_eq_false_2 (61 ∈ k)) by done.
    rewrite bool_decide_eq_false_2; [done|].
    intros ->. by rewrite Hkc in Hkd; destruct u.
  - intros [?|Hin]; [done|]. by apply Hw0, strip_subset.
Qed.

Lemma assignment_line_witness :
  env_line ∅ (py "  " ++ py "URL" ++ py " " ++ [61] ++ py " https://host/?a=b#c  ")
  = Ok (<[py "URL" := strip (py " https://host/?a=b#c  ")]> ∅).
Proof.
  apply (assignment_line ∅ (py "  ") (py "URL") (py " "));
    try reflexivity; try discriminate;
    apply (bool_decide_unpack (_ ∉ _)); vm_compute; exact I.
Defined.

(** X9. Loading the file a second time changes nothing: after a load that
    succeeded, every line of the file finds its variable set, also in any
    larger environment. *)
Theorem load_env_idempotent (lines : list pystr) (env env' e : gmap pystr pystr) :
  load_env lines env = Ok env' → env' ⊆ e → load_env lines e = Ok e.
Proof.
  revert env. induction lines as [|_line rest IH]; intros env; [done|].
  intros (env1 & H1 & Hrest)%load_env_cons Hsub. simpl.
  rewrite (env_line_again env _line env1 e H1).
  - simpl. by apply (IH env1).
  - transitivity env'; [by apply (load_env_keeps rest)|done].
Qed.

Lemma load_env_idempotent_witness :
  load_env [py "# keys"; py "A=1"; py "A=2"; py "B = x"]
           {[ py "A" := py "1"; py "B" := py "x" ]}
  = Ok {[ py "A" := py "1"; py "B" := py "x" ]}.
Proof.
  apply (load_env_idempotent _ ∅ {[ py "A" := py "1"; py "B" := py "x" ]});
    [by vm_compute|done].
Defined.

(** ** Fetching page by page *)

Lemma table_range_page {A} (rows : list A) (o p : Z) :
  0 <= o → 1 <= p →
  table_range rows o (o + p - 1) = take (Z.to_nat p) (drop (Z.to_nat o) rows).
Proof. intros Ho Hp. unfold table_range. do 2 f_equal. lia. Qed.

(** The loop over a table, from any page boundary. *)
Lemma paginated_fetch_from_table {A} (rows : list A) (p : Z) (fuel : nat) (o : Z) :
  1 <= p → 0 <= o <= Z.of_nat (length rows) →
  _paginated_fetch_from (table_range rows) fuel p o (take (Z.to_nat o) rows)
  = if (Z.of_nat (length rows) - o) / p + 1 <=? Z.of_nat fuel
    then Some rows else None.
Proof.
  intros Hp. revert o. induction fuel as [|fuel IH]; intros o Ho.
  - cbn [_paginated_fetch_from].
    destruct (Z.leb_spec ((Z.of_nat (length rows) - o) / p + 1) (Z.of_nat 0))
      as [Hle|]; [|done].
    assert (0 <= (Z.of_nat (length rows) - o) / p) by (apply Z.div_pos; lia). lia.
  - cbn [_paginated_fetch_from]. rewrite table_range_page by lia.
    rewrite length_take, length_drop.
    destruct (Z.ltb_spec
                (Z.of_nat (Z.to_nat p `min` (length rows - Z.to_nat o))) p) as [Hshort|Hfull].
    + rewrite (take_ge (drop (Z.to_nat o) rows)) by (rewrite length_drop; lia).
      rewrite take_drop.
      rewrite Z.div_small by lia.
      by destruct (Z.leb_spec (0 + 1) (Z.of_nat (S fuel))); [|lia].
    + rewrite take_take_drop.
      replace (Z.to_nat o + Z.to_nat p)%nat with (Z.to_nat (o + p)) by lia.
      rewrite IH by lia.
      replace (Z.of_nat (length rows) - o)
        with ((Z.of_nat (length rows) - (o + p)) + 1 * p) by lia.
      rewrite Z.div_add by lia.
      destruct (Z.leb_spec ((Z.of_nat (length rows) - (o + p)) / p + 1) (Z.of_nat fuel)),
               (Z.leb_spec ((Z.of_nat (length rows) - (o + p)) / p + 1 + 1)
                           (Z.of_nat (S fuel))); (done || lia).
Qed.

Lemma paginated_fetch_table {A} (rows : list A) (p : Z) (fuel : nat) :
  1 <= p →
  _paginated_fetch (table_range rows) fuel p
  = if Z.of_nat (length rows) / p + 1 <=? Z.of_nat fuel then Some rows else None.
Proof.
  intros Hp. unfold _paginated_fetch.
  change (@nil A) with (take (Z.to_nat 0) rows).
  rewrite paginated_fetch_from_table by lia. by rewrite Z.sub_0_r.
Qed.

(** X10. Against a service that holds a table and answers each range
    request with the rows of that range, [_paginated_fetch] with a page size
    of at least 1 returns the whole table, in order, after
    [len / page_size + 1] requests and no fewer (one more request than
    pages when the last page is full). *)
Theorem paginated_fetch_whole_table {A} (rows : list A) (page_size : Z) (fuel : nat) :
  1 <= page_size →
  (Z.of_nat (length rows) / page_size + 1 <= Z.of_nat fuel →
   _paginated_fetch (table_range rows) fuel page_size = Some rows) ∧
  (Z.of_nat fuel < Z.of_nat (length rows) / page_size + 1 →
   _paginated_fetch (table_range rows) fuel page_size = None).
Proof.
  intros Hp. rewrite paginated_fetch_table by done.
  destruct (Z.leb_spec (Z.of_nat (length rows) / page_size + 1) (Z.of_nat fuel));
    split; (done || lia).
Qed.

Lemma paginated_fetch_whole_table_witness :
  _paginated_fetch (table_range [10; 20; 30; 40]) 3 2 = Some [10; 20; 30; 40] ∧
  _paginated_fetch (table_range [10; 20; 30; 40]) 2 2 = None.
Proof.
  split.
  - apply (paginated_fetch_whole_table [10; 20; 30; 40] 2 3); [lia|].
    by vm_compute.
  - apply (paginated_fetch_whole_table [10; 20; 30; 40] 2 2); [lia|].
    by vm_compute.
Defined.

(** X11. [_paginated_fetch] ends at the first page that is shorter than
    [page_size]: when the service gives at most [cap < page_size] rows per
    answer, the first request ends the loop and the result is the first
    [cap] rows, however long the table is. *)
Theorem paginated_fetch_short_page {A} (rows : list A) (cap page_size : Z)
    (fuel : nat) :
  0 <= cap < page_size →
  _paginated_fetch (capped_range cap rows) (S fuel) page_size
  = Some (take (Z.to_nat cap) rows).
Proof.
  intros Hcap. unfold _paginated_fetch. cbn [_paginated_fetch_from].
  unfold capped_range. rewrite table_range_page by lia.
  rewrite take_take, length_take.
  destruct (_ <? page_size) eqn:Hlt; [|apply Z.ltb_ge in Hlt; lia].
  simpl. f_equal. f_equal. lia.
Qed.

Lemma paginated_fetch_short_page_witness :
  _paginated_fetch (capped_range 2 [10; 20; 30; 40; 50]) 1 3 = Some [10; 20].
Proof. apply (paginated_fetch_short_page [10; 20; 30; 40; 50] 2 3 0). lia. Defined.

(** X12. With a page size of 0 or less the loop of [_paginated_fetch]
    never ends, whatever the service answers: no page is shorter than the
    page size, and no number of requests gives a result. *)
Theorem paginated_fetch_no_page {A} (execute_range : Z → Z → list A)
    (page_size : Z) (fuel : nat) :
  page_size <= 0 → _paginated_fetch execute_range fuel page_size = None.
Proof.
  intros Hp. unfold _paginated_fetch. generalize 0 at 1, (@nil A).
  induction fuel as [|fuel IH]; intros o acc; [done|].
  cbn [_paginated_fetch_from].
  destruct (_ <? page_size) eqn:Hlt; [apply Z.ltb_lt in Hlt; lia|]. apply IH.
Qed.

Lemma paginated_fetch_no_page_witness :
  _paginated_fetch (table_range [10; 20; 30]) 50 0 = None.
Proof. apply (paginated_fetch_no_page (table_range [10; 20; 30]) 0 50). lia. Defined.

(** ** The years *)

#[local] Instance flip_le_total : Total (flip Z.le).
Proof. intros x y. unfold flip. lia. Qed.

#[local] Instance flip_le_trans : Transitive (flip Z.le).
Proof. intros x y z. unfold flip. lia. Qed.

Lemma strictly_sorted (l : list Z) :
  StronglySorted (flip Z.le) l → NoDup l → StronglySorted (fun x y => y < x) l.
Proof.
  induction 1 as [|x l _ IH Hx]; intros Hnd; [constructor|].
  apply NoDup_cons in Hnd as [Hin Hnd]. constructor; [by apply IH|].
  rewrite Forall_forall in Hx |- *. intros y Hy.
  specialize (Hx y Hy). unfold flip in Hx.
  assert (y ≠ x) by (by intros ->). lia.
Qed.

(** X13. Against a service that holds the table of leagues, [fetch_years]
    returns, once the requests suffice, the years of the table without
    repetition and strictly descending (latest first): a year is in the
    result exactly when some row has it. *)
Theorem fetch_years_descending (years : list Z) (fuel : nat) :
  Z.of_nat (length years) / 1000 + 1 <= Z.of_nat fuel →
  ∃ l, fetch_years (table_range years) fuel = Some l ∧
       StronglySorted (fun x y => y < x) l ∧
       ∀ y, y ∈ l ↔ y ∈ years.
Proof.
  intros Hfuel. unfold fetch_years. rewrite paginated_fetch_table by lia.
  destruct (Z.leb_spec (Z.of_nat (length years) / 1000 + 1) (Z.of_nat fuel));
    [|lia].
  simpl. eexists. split; [done|].
  pose proof (merge_sort_Permutation (flip Z.le)
                (elements (list_to_set years : gset Z))) as Hperm.
  split.
  - apply strictly_sorted; [apply StronglySorted_merge_sort; apply _|].
    rewrite Hperm. apply NoDup_elements.
  - intros y. rewrite Hperm, elem_of_elements. apply elem_of_list_to_set.
Qed.

Lemma fetch_years_descending_witness :
  ∃ l, fetch_years (table_range [2021; 2019; 2021; 2023; 2019]) 1 = Some l ∧
       StronglySorted (fun x y => y < x) l ∧
       ∀ y, y ∈ l ↔ y ∈ [2021; 2019; 2021; 2023; 2019].
Proof.
  apply (fetch_years_descending [2021; 2019; 2021; 2023; 2019] 1).
  by vm_compute.
Defined.

(** ** When [build_board] raises *)

#[local] Ltac settle :=
  split_and!; (split; intros Hcase);
  try done; try (by subst); try (by destruct Hcase as [? ?]);
  try (by destruct Hcase as (? & ? & ?)); try (by eexists).

(** X14. [build_board] fails in exactly three ways, tried in this order:
    with no pick at all the column [draft_order] is missing ([KeyError]);
    when no pick resolves to a slot, [int] fails on the NaN maximum; and
    when two picks share a (round, slot) coordinate the pivot refuses them.
    In every other case it returns a board. *)
Theorem build_board_errors (picks : list Pick) :
  (build_board picks = Raise (KeyError "draft_order") ↔ picks = []) ∧
  (build_board picks = Raise (ValueError "cannot convert float NaN to integer") ↔
   picks ≠ [] ∧ present (resolve_draft_order picks) = []) ∧
  (build_board picks
   = Raise (ValueError "Index contains duplicate entries, cannot reshape") ↔
   picks ≠ [] ∧ present (resolve_draft_order picks) ≠ [] ∧
   ¬ NoDup (coordinates picks)) ∧
  ((∃ b, build_board picks = Ok b) ↔
   picks ≠ [] ∧ present (resolve_draft_order picks) ≠ [] ∧
   NoDup (coordinates picks)).
Proof.
  destruct (decide (picks = [])) as [->|Hne].
  { simpl. settle. }
  destruct (column_max (resolve_draft_order picks)) as [ns|] eqn:Hns.
  2:{ pose proof Hns as Hnone. apply column_max_None in Hnone.
      rewrite (build_board_no_slot picks Hne Hnone). settle. }
  assert (present (resolve_draft_order picks) ≠ []) as Hsome.
  { intros Hnil%column_max_None. by rewrite Hns in Hnil. }
  destruct (max_round_is_Some picks Hne) as [nr Hnr].
  destruct (decide (NoDup (coordinates picks))) as [Hnd|Hnd].
  - rewrite (build_board_ok picks ns nr Hne Hns Hnr Hnd). settle.
  - rewrite (build_board_duplicate picks ns Hne Hns Hnd). settle.
Qed.

(** ** The first row of a legacy draft *)

(** X15. For a draft without [draft_order] in which the round-1 picks have
    pairwise distinct [pick_in_round] and no team picks twice in round 1,
    the first row of the returned text grid lists the round-1 picks from
    left to right in the order of [pick_in_round]: the pick at position [j]
    of the sorted round 1 is in the cell (1, [j + 1]). *)
Theorem legacy_first_row (picks : list Pick) (b : Board) (j : nat) (q : Pick) :
  Forall (fun p => draft_order p = None) picks →
  distinct_round1 picks →
  NoDup (map team_id (filter (fun p => round p = 1) picks)) →
  build_board picks = Ok b →
  round1_sorted picks !! j = Some q →
  grid_cell (text_grid b) 1 (Z.of_nat j + 1) = Some (cell_text q).
Proof.
  intros Hnone _ Hnd Hb Hq.
  assert (round1_sorted picks ≡ₚ filter (fun p => round p = 1) picks) as Hperm
    by apply sort_by_pick_perm.
  assert (NoDup (map team_id (round1_sorted picks))) as Hnd'.
  { change (NoDup (team_id <$> round1_sorted picks)). by rewrite Hperm. }
  assert (q ∈ filter (fun p => round p = 1) picks) as Hin.
  { rewrite <-Hperm. apply list_elem_of_lookup. by exists j. }
  apply list_elem_of_filter in Hin as [Hround Hin].
  apply list_elem_of_lookup in Hin as [i Hi].
  apply (built_cell picks b i q); [done|done| |lia|lia].
  replace (1, Some (Z.of_nat j + 1)) with (round q, Some (Z.of_nat j + 1))
    by (by rewrite Hround).
  apply lookup_coordinates; [done|].
  rewrite (resolve_legacy picks Hnone), list_lookup_fmap, Hi. simpl.
  rewrite team_to_slot_last.
  assert (map team_id (round1_sorted picks) !! j = Some (team_id q)) as Hj.
  { change (map team_id ?l) with (team_id <$> l).
    by rewrite list_lookup_fmap, Hq. }
  by rewrite (last_index_NoDup _ _ j Hnd' Hj).
Qed.

Lemma legacy_first_row_witness :
  ∃ b, build_board bac_draft = Ok b ∧
       grid_cell (text_grid b) 1 (Z.of_nat 0 + 1) = Some (cell_text (legacy 1 1 "B")).
Proof.
  destruct (build_board bac_draft) as [b|e] eqn:Hb; [|by vm_compute in Hb].
  exists b. split; [done|].
  apply (legacy_first_row bac_draft b 0 (legacy 1 1 "B"));
    [by repeat constructor| | |done|reflexivity];
    apply (bool_decide_unpack (NoDup _)); vm_compute; exact I.
Defined.

(** ** A line without a name *)

Lemma setdefault_no_empty_name (key value : pystr) (env env' : gmap pystr pystr) :
  env !! ([] : pystr) = None → setdefault key value env = Ok env' → env' !! ([] : pystr) = None.
Proof.
  intros Hempty. unfold setdefault. destruct (env !! key); [by intros [= <-]|].
  destruct (bool_decide _); [done|]. destruct (bool_decide _); [done|].
  destruct (bool_decide_reflect (key = [])) as [|Hkey]; [done|].
  intros [= <-]. by rewrite lookup_insert_ne.
Qed.

Lemma load_env_no_empty_name (lines : list pystr) (env env' : gmap pystr pystr) :
  env !! ([] : pystr) = None → load_env lines env = Ok env' → env' !! ([] : pystr) = None.
Proof.
  revert env. induction lines as [|_line rest IH]; intros env Hempty.
  - by intros [= <-].
  - intros (env1 & H1 & Hrest)%load_env_cons. apply (IH env1); [|done].
    destruct (env_line_cases _line) as [H|(k & v & H)]; rewrite H in H1.
    + by injection H1 as <-.
    + by apply (setdefault_no_empty_name k v env).
Qed.

Lemma setdefault_empty_name (value : pystr) (env : gmap pystr pystr) :
  env !! ([] : pystr) = None → 0 ∉ value →
  setdefault ([] : pystr) value env = Raise (OSError 22 "Invalid argument").
Proof.
  intros Hempty Hvalue. unfold setdefault. rewrite Hempty.
  rewrite bool_decide_eq_false_2 by (by intros [?%elem_of_nil|?]).
  by rewrite bool_decide_eq_false_2 by (by intros ?%elem_of_nil).
Qed.

(** X16. A line of the [.env] file that starts with ["="] (after white
    space) has an empty name, on which [setenv] fails: when the lines
    before it load, the load ends there with the [OSError] of [EINVAL]
    (errno 22), whatever follows.  (The environment of a process holds no
    variable with the empty name.) *)
Theorem nameless_line_raises (l1 l2 : list pystr) (p w : pystr)
    (env env1 : gmap pystr pystr) :
  env !! ([] : pystr) = None → blank p = true → 0 ∉ w →
  load_env l1 env = Ok env1 →
  load_env (l1 ++ (p ++ 61 :: w) :: l2) env
  = Raise (OSError 22 "Invalid argument").
Proof.
  intros Hempty Hp Hw H1.
  rewrite load_env_app, H1. simpl.
  assert (env_line env1 (p ++ 61 :: w)
          = Raise (OSError 22 "Invalid argument")) as ->; [|done].
  unfold env_line, strip. rewrite lstrip_pad by done.
  change (lstrip (61 :: w)) with (61 :: w).
  rewrite (rstrip_mid [] 61 w eq_refl : rstrip (61 :: w) = 61 :: rstrip w).
  simpl. change (rstrip []) with (@nil Z).
  change (rstrip (lstrip (rstrip w))) with (strip (rstrip w)).
  rewrite strip_rstrip. apply setdefault_empty_name.
  - apply (load_env_no_empty_name l1 env env1 Hempty H1).
  - intros Hin. by apply Hw, strip_subset.
Qed.

Lemma nameless_line_raises_witness :
  load_env ([py "A=1"] ++ (py " " ++ 61 :: py "oops") :: [py "B=2"]) ∅
  = Raise (OSError 22 "Invalid argument").
Proof.
  apply (nameless_line_raises [py "A=1"] [py "B=2"] (py " ") (py "oops") ∅
           {[ py "A" := py "1" ]}); [done|done| |by vm_compute].
  apply (bool_decide_unpack (_ ∉ _)). vm_compute. exact I.
Defined.

(** ** The styles of the cells *)

Lemma column_named_unique (labels : list pystr) grid (i : nat) name :
  NoDup labels → labels !! i = Some name →
  column_named labels grid name = mapM (fun row => row !! i) grid.
Proof.
  intros Hnd Hi. unfold column_named.
  destruct (list_find (fun l => l = name) labels) as [[i' l]|] eqn:Hfind.
  - apply list_find_Some in Hfind as (Hi' & -> & _).
    assert (i' = i) as -> by (by apply (NoDup_lookup labels i' i name)).
    simpl. rewrite bool_decide_eq_false_2; [done|].
    intros (j & Hj)%list_elem_of_lookup. rewrite lookup_drop in Hj.
    pose proof (NoDup_lookup labels _ _ name Hnd Hj Hi). lia.
  - apply list_find_None in Hfind. rewrite Forall_forall in Hfind.
    destruct (Hfind name); [|done]. apply list_elem_of_lookup. by exists i.
Qed.

Lemma dict_get_default d key default :
  key ∉ d.*1 → dict_get d key default = default.
Proof.
  induction d as [|[k v] d IH]; [done|]. simpl. intros Hout.
  rewrite bool_decide_eq_false_2.
  - apply IH. intros ?. apply Hout. by right.
  - intros ->. apply Hout. by left.
Qed.

Lemma cell_css_nil p : cell_css p = [] ↔ p = [].
Proof.
  split; [|by intros ->]. by destruct p.
Qed.

(** X17. On a board [build_board] returns, [_apply_cell_colors] finds for
    the label of slot [s] the one column of the position grid under that
    label, and gives a style per round: the cell of round [r] gets the
    style of its position, which is empty exactly when the position is the
    empty string (no pick there, or a pick without a position); a position
    that is not in the palette gets the white background. *)
Theorem cell_styles (picks : list Pick) (b : Board) (s : Z) :
  build_board picks = Ok b →
  1 <= s <= num_slots b →
  ∃ label styles,
    col_labels b !! Z.to_nat (s - 1) = Some label ∧
    _apply_cell_colors b label = Some styles ∧
    length styles = length (pos_grid b) ∧
    (∀ r pos, 1 <= r → grid_cell (pos_grid b) r s = Some pos →
       styles !! Z.to_nat (r - 1) = Some (cell_css pos) ∧
       (cell_css pos = [] ↔ pos = []) ∧
       (pos ≠ [] → pos ∉ POSITION_COLORS.*1 →
        cell_css pos
        = py "background-color: #FFFFFF; color: #333; font-size: 11px; white-space: pre-line;")).
Proof.
  intros Hb Hs.
  destruct (build_board_inv picks b Hb) as (ns & nr & _ & _ & _ & _ & ->).
  cbn [col_labels pos_grid num_slots] in *.
  set (rows := zip (resolve_draft_order picks) picks).
  set (cells := list_to_map (zip (coordinates picks) (map position picks))).
  assert (map (col_label rows) (range1 ns) !! Z.to_nat (s - 1)
          = Some (col_label rows s)) as Hlabel.
  { change (map ?f ?l) with (f <$> l). rewrite list_lookup_fmap, lookup_range1 by lia.
    simpl. do 2 f_equal. lia. }
  set (column := map (fun r => default [] (mjoin (cells !! (r, Some s)))) (range1 nr)).
  assert (mapM (fun row : list pystr => row !! Z.to_nat (s - 1))
               (reindex_fill cells nr ns) = Some column) as Hcol.
  { apply mapM_Some. unfold reindex_fill, column.
    change (map ?f ?l) with (f <$> l).
    apply Forall2_fmap, Forall_Forall2_diag, Forall_forall. intros r _.
    rewrite list_lookup_fmap, lookup_range1 by lia. simpl.
    by replace (Z.of_nat (Z.to_nat (s - 1)) + 1) with s by lia. }
  exists (col_label rows s), (map cell_css column).
  split; [done|]. split; [|split].
  - unfold _apply_cell_colors. cbn [col_labels pos_grid].
    rewrite (column_named_unique _ _ _ _ (col_labels_NoDup rows ns) Hlabel).
    apply bind_Some. exists column. split; [exact Hcol|done].
  - unfold column, reindex_fill. by rewrite !length_map.
  - intros r pos Hr Hcell.
    destruct (grid_cell_range _ _ _ _ _ _ Hr (proj1 Hs) Hcell) as [Hrn _].
    rewrite reindex_fill_cell in Hcell by lia. injection Hcell as <-.
    split; [|split; [apply cell_css_nil|]].
    + unfold column. change (map ?f ?l) with (f <$> l).
      rewrite !list_lookup_fmap, lookup_range1 by lia. simpl.
      by replace (Z.of_nat (Z.to_nat (r - 1)) + 1) with r by lia.
    + intros Hne Hout. unfold cell_css.
      destruct (default [] (mjoin (cells !! (r, Some s)))) as [|c pos] eqn:Hpos;
        [done|].
      rewrite dict_get_default by done. by vm_compute.
Qed.

Lemma cell_styles_witness :
  ∃ b label styles,
    build_board incomplete_draft = Ok b ∧
    col_labels b !! Z.to_nat (1 - 1) = Some label ∧
    _apply_cell_colors b label = Some styles ∧
    length styles = length (pos_grid b).
Proof.
  destruct (build_board incomplete_draft) as [b|e] eqn:Hb; [|by vm_compute in Hb].
  destruct (cell_styles incomplete_draft b 1 Hb) as (label & styles & H1 & H2 & H3 & _).
  { destruct (build_board_inv _ _ Hb) as (ns & nr & _ & Hns & _ & _ & ->).
    injection Hns as <-. simpl. lia. }
  by exists b, label, styles.
Defined.
